(** * webgl-map: the tile engine, embedded and verified

    A shallow embedding of the tile-pyramid core of webgl-map:

    - [MercatorCoordinate]   utils/mercator-coordinate.js
    - the triangulator and the tile decoder of utils/map-utils.js
    - the worker listener of workers/tile-worker.js
    - [updateTiles], [getPlaceholderTile], [handleTileWorker] and the tile
      lookup of [draw] from src/index.js

    Longitudes, latitudes and projected coordinates are real numbers; tile
    coordinates are integers; the camera zoom is a rational (every finite
    double is one); tile keys are the strings the code builds with
    [join('/')]; the tile cache is a finite map from those strings. *)

From Stdlib Require Import ZArith QArith Qround Qminmax Reals Lra Lia List.
From Stdlib Require Import String Ascii DecimalString DecimalZ DecimalPos.
From stdpp Require Import gmap strings list.

Set Default Proof Using "Type".

(** ** JavaScript values that the engine handles *)

(** A number stored in a vertex array: a real value, or NaN, which is what
    arithmetic on [undefined] (a read past the end of an array) yields. *)
Inductive number : Type :=
| Num (r : R)
| NaN.

(** A GeoJSON position [[lng, lat]]. *)
Definition position : Type := (R * R)%type.

(** ** utils/mercator-coordinate.js *)

Module MercatorCoordinate.
Local Open Scope R_scope.

Definition mercatorXfromLng (lng : R) : R :=
  (180 + lng) / 360.

Definition mercatorYfromLat (lat : R) : R :=
  (180 - (180 / PI * ln (tan (PI / 4 + lat * PI / 360)))) / 360.

Definition fromLngLat (lngLat : position) : R * R :=
  let x := mercatorXfromLng (fst lngLat) in
  let y := mercatorYfromLat (snd lngLat) in
  (* relative to an origin at the centre of the viewport *)
  let x := -1 + (x * 2) in
  let y := 1 - (y * 2) in
  (x, y).

Definition lngFromMercatorX (x : R) : R :=
  x * 360 - 180.

Definition latFromMercatorY (y : R) : R :=
  let y2 := 180 - y * 360 in
  360 / PI * atan (exp (y2 * PI / 180)) - 90.

Definition fromXY (xy : R * R) : position :=
  let '(x, y) := xy in
  let lng := lngFromMercatorX ((1 + x) / 2) in
  let lat := latFromMercatorY ((1 - y) / 2) in
  (lng, lat).

(** [fromLngLat([lng, lat])] where [lng] and [lat] were read from an array
    and are [undefined] past its end. [x] is computed from [lng] alone and
    [y] from [lat] alone, and arithmetic on [undefined] gives NaN. *)
Definition fromLngLat_read (lng lat : option R) : list number :=
  [ from_option (fun lng => Num (fst (fromLngLat (lng, 0)))) NaN lng;
    from_option (fun lat => Num (snd (fromLngLat (0, lat)))) NaN lat ].
End MercatorCoordinate.

(** ** utils/map-utils.js: geometry to vertices *)

(** A GeoJSON geometry as [toGeoJSON] of @mapbox/vector-tile produces it:
    the [type] tag with the [coordinates] of that type. *)
Inductive Geometry : Type :=
| Point (coordinates : position)
| MultiPoint (coordinates : list position)
| LineString (coordinates : list position)
| MultiLineString (coordinates : list (list position))
| Polygon (coordinates : list (list position))
| MultiPolygon (coordinates : list (list (list position)))
| OtherGeometry (type : string).

(** [[...fromLngLat(c)]]: the two projected coordinates, in order. *)
Definition spread (xy : R * R) : list number := [Num (fst xy); Num (snd xy)].

(** [earcut.flatten] of the earcut package: all coordinates of all rings in
    one array, and the index of the first vertex of every ring after the
    first one. It reads [data[0][0].length], which throws when there is no
    first ring or the first ring has no point. *)
Fixpoint flatten_holes (holeIndex : nat) (prev : list position)
    (rest : list (list position)) : list nat :=
  match rest with
  | [] => []
  | ring :: rest' =>
      let holeIndex := (holeIndex + length prev)%nat in
      holeIndex :: flatten_holes holeIndex ring rest'
  end.

Definition flatten_vertices (data : list (list position)) : list R :=
  flat_map (flat_map (fun p : position => [fst p; snd p])) data.

Record flattened : Type := { vertices : list R; holes : list nat }.

Definition earcut_flatten (data : list (list position)) : option flattened :=
  match data with
  | (p :: ring) :: rest =>
      Some {| vertices := flatten_vertices data;
              holes := flatten_holes 0 (p :: ring) rest |}
  | _ => None
  end.

(** Follows the spec's words, for comparison with [verticesFromLine]: one
    independent segment per pair of consecutive points, so that every
    intermediate point appears twice. *)
Fixpoint spec_segments (ps : list (R * R)) : list number :=
  match ps with
  | p :: (q :: _) as rest => spread p ++ spread q ++ spec_segments rest
  | _ => []
  end.

Section Triangulator.
(** The ear-clipping triangulation of the earcut package, called as
    [earcut(vertices, holes, 2)]: it returns vertex indices, three per
    triangle. The development holds for any such function. *)
Variable earcut : list R -> list nat -> list nat.

(** The loop of [verticesFromPolygon] over the triangle indices: each
    index is resolved to its coordinate in [data.vertices], projected. *)
Definition triangle_vertices (vertices : list R) (triangles : list nat)
    : list number :=
  flat_map
    (fun point : nat =>
       let lng := vertices !! (point * 2)%nat in
       let lat := vertices !! (point * 2 + 1)%nat in
       MercatorCoordinate.fromLngLat_read lng lat)
    triangles.

(** convert a GeoJSON polygon into triangles; [None] is a thrown
    TypeError *)
Definition verticesFromPolygon (coordinates : list (list position))
    : option (list number) :=
  data ← earcut_flatten coordinates;
  let triangles := earcut (vertices data) (holes data) in
  Some (triangle_vertices (vertices data) triangles).

(** One turn of the loop of [verticesFromLine]: duplicate the previous
    coordinate, then push the next one. *)
Definition line_push (vs : list number) (c : position) : list number :=
  let prevX := nth (length vs - 2) vs NaN in
  let prevY := nth (length vs - 1) vs NaN in
  (vs ++ [prevX; prevY]) ++ spread (MercatorCoordinate.fromLngLat c).

(** with gl.LINES every two coordinates are connected, so the last
    starting point is duplicated to draw a continuous line; reading
    [coordinates[0]] or [coordinates[1]] of a shorter array gives
    [undefined], on which [fromLngLat] throws *)
Definition verticesFromLine (coordinates : list position)
    : option (list number) :=
  match coordinates with
  | c0 :: c1 :: rest =>
      Some (fold_left line_push rest
              (spread (MercatorCoordinate.fromLngLat c0) ++
               spread (MercatorCoordinate.fromLngLat c1)))
  | _ => None
  end.

(** [append(arr1, arr2)], element by element *)
Definition append (arr1 arr2 : list number) : list number :=
  fold_left (fun arr1 n => arr1 ++ [n]) arr2 arr1.

(** [coordinates.forEach(c => append(positions, f(c)))] from an empty
    [positions]; a throw in [f] ends the loop. *)
Fixpoint forEach_append {A} (f : A -> option (list number))
    (coordinates : list A) (positions : list number)
    : option (list number) :=
  match coordinates with
  | [] => Some positions
  | c :: coordinates' =>
      vs ← f c;
      forEach_append f coordinates' (append positions vs)
  end.

(** convert a GeoJSON geometry to webgl vertices *)
Definition geometryToVertices (geometry : Geometry) : option (list number) :=
  match geometry with
  | Polygon coordinates => verticesFromPolygon coordinates
  | MultiPolygon coordinates =>
      forEach_append
        (fun polygon : list (list position) =>
           match polygon with
           | ring0 :: _ => verticesFromPolygon [ring0]
           | [] => None (* earcut.flatten([undefined]) throws *)
           end)
        coordinates []
  | LineString coordinates => verticesFromLine coordinates
  | MultiLineString coordinates =>
      forEach_append verticesFromLine coordinates []
  | Point coordinates => Some (spread (MercatorCoordinate.fromLngLat coordinates))
  | MultiPoint _ | OtherGeometry _ => Some [] (* unsupported type, logged *)
  end.

(** the outer ring of a member polygon, triangulated on its own *)
Definition outer_ring_vertices (polygon : list (list position))
    : option (list number) :=
  ring0 ← head polygon; verticesFromPolygon [ring0].

(** a geometry on which [geometryToVertices] does not throw *)
Definition converts (geometry : Geometry) : Prop :=
  is_Some (geometryToVertices geometry).
End Triangulator.

(** ** utils/map-utils.js: the tile decoder *)

Inductive primitive : Type := polygon | point | line | unknown.

#[global] Instance primitive_eq_dec : EqDecision primitive.
Proof. solve_decision. Defined.

Definition getLayerPrimitive (geometry : Geometry) : primitive :=
  match geometry with
  | Polygon _ | MultiPolygon _ => polygon
  | Point _ => point
  | LineString _ | MultiLineString _ => line
  | MultiPoint _ | OtherGeometry _ => unknown (* logged *)
  end.

(** One entry of [tileData]: [{ layer, type, vertices }]. *)
Record FeatureSet : Type := {
  fs_layer : string;
  fs_type : primitive;
  fs_vertices : list number;
}.

(** A decoded vector tile: for every layer of the tile, by name, the GeoJSON
    geometries of its features in order ([feature(i).toGeoJSON(x, y, z)] for
    [i] below [_features.length]). *)
Definition VectorTile : Type := gmap string (list Geometry).

(** the layer and the primitive type of a feature set *)
Definition fs_header (fs : FeatureSet) : string * primitive :=
  (fs_layer fs, fs_type fs).

(** what a requested layer contributes to [tileData], by layer and
    primitive type: a trio when the tile has the layer, nothing otherwise *)
Definition layer_headers (vectorTile : VectorTile) (layer : string)
    : list (string * primitive) :=
  match vectorTile !! layer with
  | Some _ => [ (layer, polygon); (layer, point); (layer, line) ]
  | None => []
  end.

(** The three vertex buckets of a layer. *)
Record buckets : Type := {
  polygons : list number;
  points : list number;
  lines : list number;
}.

Section Decoder.
Variable earcut : list R -> list nat -> list nat.

(** the loop over the features of one layer *)
Fixpoint convert_features (features : list Geometry) (b : buckets)
    : option buckets :=
  match features with
  | [] => Some b
  | geojson :: features' =>
      match getLayerPrimitive geojson with
      | polygon =>
          vs ← geometryToVertices earcut geojson;
          convert_features features'
            {| polygons := polygons b ++ vs; points := points b; lines := lines b |}
      | point =>
          vs ← geometryToVertices earcut geojson;
          convert_features features'
            {| polygons := polygons b; points := points b ++ vs; lines := lines b |}
      | line =>
          vs ← geometryToVertices earcut geojson;
          convert_features features'
            {| polygons := polygons b; points := points b; lines := lines b ++ vs |}
      | unknown => convert_features features' b
      end
  end.

(** the loop [for (const layer in layers)], pushing onto [tileData] *)
Fixpoint convert_layers (vectorTile : VectorTile) (layers : list string)
    (tileData : list FeatureSet) : option (list FeatureSet) :=
  match layers with
  | [] => Some tileData
  | layer :: layers' =>
      match vectorTile !! layer with
      | Some features =>
          b ← convert_features features
                {| polygons := []; points := []; lines := [] |};
          convert_layers vectorTile layers'
            (((tileData
                 ++ [ {| fs_layer := layer; fs_type := polygon; fs_vertices := polygons b |} ])
                 ++ [ {| fs_layer := layer; fs_type := point; fs_vertices := points b |} ])
                 ++ [ {| fs_layer := layer; fs_type := line; fs_vertices := lines b |} ])
      | None => convert_layers vectorTile layers' tileData
      end
  end.

(** Fetch tile from server, and convert layer coordinates to vertices.
    [response] is the outcome of the request and of the protobuf decoding
    ([None] when either throws); [layers] are the keys of the [layers]
    option in enumeration order. The result is [None] when the promise is
    rejected. *)
Definition fetchTile (response : option VectorTile) (layers : list string)
    : option (list FeatureSet) :=
  vectorTile ← response;
  convert_layers vectorTile layers [].
End Decoder.

(** ** workers/tile-worker.js *)

(** The request [{ tile, layers, url }] posted to the worker. *)
Record request : Type := {
  req_tile : string;
  req_layers : list string;
  req_url : string;
}.

(** A cache entry and the [tileData] field of a reply: an array of feature
    sets, or [undefined]. *)
Inductive tileData : Type :=
| Arr (featureSets : list FeatureSet)
| Undefined.

(** The reply [{ tile, tileData }] posted back by the worker. *)
Record reply : Type := {
  rep_tile : string;
  rep_tileData : tileData;
}.

(** The message listener: the reply carries the tile data, or, after a
    throw, the tile alone (an undefined [tileData] unsets the cache
    hold). *)
Definition tile_worker (earcut : list R -> list nat -> list nat)
    (event : request) (response : option VectorTile) : reply :=
  match fetchTile earcut response (req_layers event) with
  | Some data => {| rep_tile := req_tile event; rep_tileData := Arr data |}
  | None => {| rep_tile := req_tile event; rep_tileData := Undefined |}
  end.

(** ** Tiles and tile keys *)

(** A tile [[x, y, z]] of @mapbox/tilebelt. *)
Definition Tile : Type := (Z * Z * Z)%type.

(** The two functions of @mapbox/tilebelt that the engine calls on tiles.
    The engine is verified against this interface. *)
Class Tilebelt : Type := {
  getParent : Tile -> Tile;
  getChildren : Tile -> list Tile;
}.

(** The functions as the tilebelt package defines them:
    [getParent(t) = [t[0] >> 1, t[1] >> 1, t[2] - 1]] with the 32-bit signed
    shift of JavaScript, and [getChildren] the four tiles one level down. *)
Module tilebelt.
Local Open Scope Z_scope.

Definition ToInt32 (n : Z) : Z := (n + 2 ^ 31) mod 2 ^ 32 - 2 ^ 31.

Definition sar1 (n : Z) : Z := Z.shiftr (ToInt32 n) 1.

Definition package : Tilebelt := {|
  getParent := fun tile =>
    let '(x, y, z) := tile in (sar1 x, sar1 y, z - 1);
  getChildren := fun tile =>
    let '(x, y, z) := tile in
    [ (x * 2, y * 2, z + 1);
      (x * 2 + 1, y * 2, z + 1);
      (x * 2 + 1, y * 2 + 1, z + 1);
      (x * 2, y * 2 + 1, z + 1) ];
|}.
End tilebelt.

(** The string of an integer-valued number, as [join] prints it: decimal
    digits after an optional minus sign (tile coordinates stay far below
    10^21, where JavaScript switches to the exponent form). *)
Definition toString (n : Z) : string := NilZero.string_of_int (Z.to_int n).

(** [t.join('/')] *)
Definition join (t : Tile) : string :=
  let '(x, y, z) := t in
  toString x +:+ "/" +:+ toString y +:+ "/" +:+ toString z.

(** [s.split(sep)] for a one-character separator *)
Fixpoint split (sep : ascii) (s : string) : list string :=
  match s with
  | EmptyString => [EmptyString]
  | String c s' =>
      if Ascii.eqb c sep then EmptyString :: split sep s'
      else match split sep s' with
           | piece :: pieces => String c piece :: pieces
           | [] => [String c EmptyString]
           end
  end.

(** a string without the separator of tile keys *)
Fixpoint sepfree (s : string) : Prop :=
  match s with
  | EmptyString => True
  | String c s' => c <> "/"%char /\ sepfree s'
  end.

(** [Number(s)] on the decimal integer literals that [join] prints; any
    other string is [None] here (the engine only parses keys it has
    joined). *)
Definition Number (s : string) : option Z :=
  Z.of_int <$> NilZero.int_of_string s.

(** [[...new Set(l)]]: the distinct strings of [l] in insertion order *)
Definition Set_add (s : list string) (x : string) : list string :=
  if decide (x ∈ s) then s else s ++ [x].

Definition new_Set (l : list string) : list string :=
  fold_left Set_add l [].

(** ** src/index.js *)

Definition TILE_SIZE : Z := 512.
Definition MAX_TILE_ZOOM : Z := 14.

(** [Math.trunc] on a rational: the integer part, rounding toward zero *)
Definition Math_trunc (q : Q) : Z := Z.quot (Qnum q) (Z.pos (Qden q)).

(** [Math.pow(2, z)] for an integer [z] *)
Definition Math_pow2 (z : Z) : Q := Qpower 2 z.

Definition Qltb (a b : Q) : bool := negb (Qle_bool b a).

Record mapOptions : Type := {
  (** the keys of the [layers] option (layer name to colour), in the order
      in which [for ... in] enumerates them *)
  layers : list string;
  tileServerURL : string;
  tileBuffer : Z;
  minZoom : Q;
  maxZoom : Q;
  zoom : Q;
}.

Record WebGLMap : Type := {
  options : mapOptions;
  camera_zoom : Q;
  (** cached tile data *)
  tiles : gmap string tileData;
  (** current visible tiles *)
  tilesInView : list Tile;
  bufferedTiles : list Tile;
  (** the requests posted to the tile worker and not answered yet *)
  tileWorker : list request;
}.

(** [this.tiles[key]]: a missing key reads as [undefined] *)
Definition tiles_get (tiles : gmap string tileData) (key : string) : tileData :=
  default Undefined (tiles !! key).

(** truthiness of a cache entry: every array is truthy, also the empty
    one; [undefined] is not *)
Definition truthy (v : tileData) : bool :=
  match v with
  | Arr _ => true
  | Undefined => false
  end.

(** [v?.length > 0] *)
Definition length_gt_0 (v : tileData) : bool :=
  match v with
  | Arr (_ :: _) => true
  | _ => false
  end.

(** [[...v]] of an entry known to be an array *)
Definition elements (v : tileData) : list FeatureSet :=
  match v with
  | Arr featureSets => featureSets
  | Undefined => []
  end.

(** the integers [lo], [lo + 1], ..., [hi] that a loop
    [for (let i = lo; i <= hi; i++)] visits *)
Definition loop_range (lo hi : Z) : list Z :=
  (fun i : nat => (lo + Z.of_nat i)%Z) <$> seq 0 (Z.to_nat (hi + 1 - lo)).

(** The valid tile keys of the data model. *)
Definition valid_tile (t : Tile) : Prop :=
  let '(x, y, z) := t in
  (0 <= x < 2 ^ z /\ 0 <= y < 2 ^ z /\ 0 <= z <= MAX_TILE_ZOOM)%Z.

(** the zoom clamp of [handleZoom] *)
Definition clampZoom (o : mapOptions) (zoom : Q) : Q :=
  Qmax (minZoom o) (Qmin zoom (maxZoom o)).

(** the integer tile zoom of [updateTiles] *)
Definition tileZoom (camera_zoom : Q) : Z :=
  Z.min (Math_trunc camera_zoom) MAX_TILE_ZOOM.

(** the range filter of [updateTiles] *)
Definition inRange (tile : string) : bool :=
  match Number <$> split "/" tile with
  | Some x :: Some y :: Some z :: _ =>
      let N := Math_pow2 z in
      let validX := (0 <=? x)%Z && Qltb (inject_Z x) N in
      let validY := (0 <=? y)%Z && Qltb (inject_Z y) N in
      let validZ := (0 <=? z)%Z && (z <=? MAX_TILE_ZOOM)%Z in
      validX && validY && validZ
  | _ => false
  end.

(** the body of the loading loop: skip a tile whose entry is truthy,
    otherwise hold its place with an empty array and post the request *)
Definition load_tile (layers : list string) (url : string)
    (st : gmap string tileData * list request) (tile : string)
    : gmap string tileData * list request :=
  if truthy (tiles_get st.1 tile) then st
  else (<[tile := Arr []]> st.1,
        st.2 ++ [ {| req_tile := tile; req_layers := layers; req_url := url |} ]).

(** the request that [updateTiles] posts for a tile *)
Definition request_for (o : mapOptions) (tile : string) : request :=
  {| req_tile := tile; req_layers := layers o; req_url := tileServerURL o |}.

(** a tile whose cache entry is falsy *)
Definition unheld (tiles : gmap string tileData) (tile : string) : bool :=
  negb (truthy (tiles_get tiles tile)).

Section Engine.
Context `{Tilebelt}.
Variable earcut : list R -> list nat -> list nat.

(** tiles visible in viewport; [minTile] and [maxTile] are the tiles that
    [tilebelt.pointToTile] gives for the corners of [getBounds()] *)
Definition viewTiles (minTile maxTile : Tile) (z : Z) : list Tile :=
  let '(minTile0, minTile1, _) := minTile in
  let '(maxTile0, maxTile1, _) := maxTile in
  let '(minX, maxX) := (Z.max minTile0 0, maxTile0) in
  let '(minY, maxY) := (Z.max minTile1 0, maxTile1) in
  x ← loop_range minX maxX;
  y ← loop_range minY maxY;
  [ (x, y, z) ].

(** additional tiles to buffer (based on buffer setting), with the parents
    2 levels up *)
Definition bufferTiles (tileBuffer : Z) (minTile maxTile : Tile) (z : Z)
    : list Tile :=
  let '(minTile0, minTile1, _) := minTile in
  let '(maxTile0, maxTile1, _) := maxTile in
  let '(minX, maxX) := (Z.max minTile0 0, maxTile0) in
  let '(minY, maxY) := (Z.max minTile1 0, maxTile1) in
  bufX ← loop_range (minX - tileBuffer) (maxX + tileBuffer);
  bufY ← loop_range (minY - tileBuffer) (maxY + tileBuffer);
  [ (bufX, bufY, z);
    getParent (bufX, bufY, z);
    getParent (getParent (bufX, bufY, z)) ].

(** the same loop in the bundle dist/webgl-map.js, built from an earlier
    revision: the four children and the direct parent *)
Definition bufferTiles_bundled (tileBuffer : Z) (minTile maxTile : Tile)
    (z : Z) : list Tile :=
  let '(minTile0, minTile1, _) := minTile in
  let '(maxTile0, maxTile1, _) := maxTile in
  let '(minX, maxX) := (Z.max minTile0 0, maxTile0) in
  let '(minY, maxY) := (Z.max minTile1 0, maxTile1) in
  bufX ← loop_range (minX - tileBuffer) (maxX + tileBuffer);
  bufY ← loop_range (minY - tileBuffer) (maxY + tileBuffer);
  ((bufX, bufY, z) :: getChildren (bufX, bufY, z))
    ++ [ getParent (bufX, bufY, z) ].

(** the candidates handed to [new Set], before duplicates are removed *)
Definition candidates (inView buffered : list Tile) : list string :=
  (join <$> inView) ++ (join <$> buffered).

(** [tilesToLoad]: duplicates removed, then the tiles in range *)
Definition tilesToLoad (inView buffered : list Tile) : list string :=
  List.filter inRange (new_Set (candidates inView buffered)).

(** the loading loop over [tilesToLoad] *)
Definition load_tiles (o : mapOptions) (toLoad : list string)
    (st : gmap string tileData * list request)
    : gmap string tileData * list request :=
  fold_left (load_tile (layers o) (tileServerURL o)) toLoad st.

Definition updateTiles (m : WebGLMap) (minTile maxTile : Tile) : WebGLMap :=
  let z := tileZoom (camera_zoom m) in
  let inView := viewTiles minTile maxTile z in
  let buffered := bufferTiles (tileBuffer (options m)) minTile maxTile z in
  let st := load_tiles (options m) (tilesToLoad inView buffered)
              (tiles m, tileWorker m) in
  {| options := options m;
     camera_zoom := camera_zoom m;
     tiles := st.1;
     tilesInView := inView;
     bufferedTiles := buffered;
     tileWorker := st.2 |}.

(** the load list of a pass *)
Definition pass_tilesToLoad (m : WebGLMap) (minTile maxTile : Tile)
    : list string :=
  let z := tileZoom (camera_zoom m) in
  tilesToLoad (viewTiles minTile maxTile z)
    (bufferTiles (tileBuffer (options m)) minTile maxTile z).

(** the requests that a pass of [updateTiles] posts *)
Definition posted_by (m : WebGLMap) (minTile maxTile : Tile) : list request :=
  drop (length (tileWorker m)) (tileWorker (updateTiles m minTile maxTile)).

(** if current tile is not loaded, just render scaled versions of parent
    or children *)
Definition getPlaceholderTile (tiles : gmap string tileData) (tile : Tile)
    : list FeatureSet :=
  (* use parent if available *)
  let parent := join (getParent tile) in
  let parentFeatureSet := tiles_get tiles parent in
  if length_gt_0 parentFeatureSet then elements parentFeatureSet
  else
    (* use whatever children are available *)
    let children := join <$> getChildren tile in
    fold_left
      (fun childFeatureSets child =>
         let featureSet := tiles_get tiles child in
         if length_gt_0 featureSet
         then childFeatureSets ++ elements featureSet
         else childFeatureSets)
      children [].

(** the feature sets that [draw] renders for a tile in view *)
Definition draw_featureSets (tiles : gmap string tileData) (tile : Tile)
    : list FeatureSet :=
  match tiles_get tiles (join tile) with
  | Arr [] => getPlaceholderTile tiles tile
  | Arr featureSets => featureSets
  | Undefined => []
  end.

(** update tiles with data from worker *)
Definition handleTileWorker (m : WebGLMap) (workerEvent : reply) : WebGLMap :=
  {| options := options m;
     camera_zoom := camera_zoom m;
     tiles := <[rep_tile workerEvent := rep_tileData workerEvent]> (tiles m);
     tilesInView := tilesInView m;
     bufferedTiles := bufferedTiles m;
     tileWorker := tileWorker m |}.

(** the map as the constructor sets it up, before its first
    [updateTiles] *)
Definition construct (o : mapOptions) : WebGLMap :=
  {| options := o;
     camera_zoom := zoom o;
     tiles := ∅;
     tilesInView := [];
     bufferedTiles := [];
     tileWorker := [] |}.

Definition set_zoom (m : WebGLMap) (zoom : Q) : WebGLMap :=
  {| options := options m;
     camera_zoom := zoom;
     tiles := tiles m;
     tilesInView := tilesInView m;
     bufferedTiles := bufferedTiles m;
     tileWorker := tileWorker m |}.

(** [setOptions]: the given options override the current ones *)
Definition setOptions (m : WebGLMap) (o : mapOptions) : WebGLMap :=
  {| options := o;
     camera_zoom := camera_zoom m;
     tiles := tiles m;
     tilesInView := tilesInView m;
     bufferedTiles := bufferedTiles m;
     tileWorker := tileWorker m |}.

Definition take_request (m : WebGLMap) (rest : list request) : WebGLMap :=
  {| options := options m;
     camera_zoom := camera_zoom m;
     tiles := tiles m;
     tilesInView := tilesInView m;
     bufferedTiles := bufferedTiles m;
     tileWorker := rest |}.

(** What can happen to the map: the constructor or a pan runs
    [updateTiles] on the current viewport; a zoom clamps the new zoom and
    runs [updateTiles] (the undo of a pan or zoom at the world limits only
    removes runs); the caller sets options; the worker answers one of the
    requests it holds, with whatever the server sent, and
    [handleTileWorker] stores the reply. *)
Inductive step : WebGLMap -> WebGLMap -> Prop :=
| step_setOptions m o :
    step m (setOptions m o)
| step_pan m minTile maxTile :
    step m (updateTiles m minTile maxTile)
| step_zoom m zoomDelta minTile maxTile :
    step m (updateTiles
              (set_zoom m (clampZoom (options m) (camera_zoom m + zoomDelta)))
              minTile maxTile)
| step_reply m before event after response :
    tileWorker m = before ++ event :: after ->
    step m (handleTileWorker (take_request m (before ++ after))
              (tile_worker earcut event response)).

Definition reachable (o : mapOptions) (m : WebGLMap) : Prop :=
  rtc step (construct o) m.

(** Follows the spec's words, for comparison with [getPlaceholderTile]:
    the nearest ancestor that is Ready and non-empty, walking up one
    level at a time, for at most [levels] levels. *)
Fixpoint spec_nearestAncestor (tiles : gmap string tileData)
    (levels : nat) (tile : Tile) : option (list FeatureSet) :=
  match levels with
  | O => None
  | S levels' =>
      let parent := getParent tile in
      if length_gt_0 (tiles_get tiles (join parent))
      then Some (elements (tiles_get tiles (join parent)))
      else spec_nearestAncestor tiles levels' parent
  end.
End Engine.

(** The invariant of the fetch coordinator: the requests not answered yet
    are for distinct tiles, and each of them holds its tile with the empty
    placeholder. *)
Definition coordinated (m : WebGLMap) : Prop :=
  NoDup (req_tile <$> tileWorker m)
  /\ forall r, r ∈ tileWorker m -> tiles_get (tiles m) (req_tile r) = Arr [].

(** ** src/index.js: the bounding box of the viewport, over the reals *)

(** [this.pixelRatio], set by the constructor *)
Definition pixelRatio : R := 2.

(** The array [[west, south, east, north]] that [getBounds] returns. *)
Record bbox : Type := {
  bbox0 : R;
  bbox1 : R;
  bbox2 : R;
  bbox3 : R;
}.

(** get latLng bbox for current viewport; the arguments are [camera.x],
    [camera.y], [camera.zoom], [canvas.width] and [canvas.height], and
    [Math.pow(2, zoom)] is the real power *)
Definition getBounds (camera_x camera_y camera_zoom width height : R) : bbox :=
  let zoomScale := Rpower 2 camera_zoom in
  (* undo clip-space *)
  let px := ((1 + camera_x) / pixelRatio)%R in
  let py := ((1 - camera_y) / pixelRatio)%R in
  (* get world coord in px *)
  let wx := (px * IZR TILE_SIZE)%R in
  let wy := (py * IZR TILE_SIZE)%R in
  (* get zoom px *)
  let zx := (wx * zoomScale)%R in
  let zy := (wy * zoomScale)%R in
  (* get bottom-left and top-right pixels *)
  let x1 := (zx - (width / 2))%R in
  let y1 := (zy + (height / 2))%R in
  let x2 := (zx + (width / 2))%R in
  let y2 := (zy - (height / 2))%R in
  (* convert to world coords *)
  let x1 := (x1 / zoomScale / IZR TILE_SIZE)%R in
  let y1 := (y1 / zoomScale / IZR TILE_SIZE)%R in
  let x2 := (x2 / zoomScale / IZR TILE_SIZE)%R in
  let y2 := (y2 / zoomScale / IZR TILE_SIZE)%R in
  {| bbox0 := MercatorCoordinate.lngFromMercatorX x1;
     bbox1 := MercatorCoordinate.latFromMercatorY y1;
     bbox2 := MercatorCoordinate.lngFromMercatorX x2;
     bbox3 := MercatorCoordinate.latFromMercatorY y2 |}.

(** check if map is at world limits: lng -180 - 180, lat -85.05 - 85.05 *)
Definition atLimits (camera_x camera_y camera_zoom width height : R) : Prop :=
  let bbox := getBounds camera_x camera_y camera_zoom width height in
  (bbox0 bbox <= -180
   \/ bbox1 bbox <= -8505 / 100
   \/ bbox2 bbox >= 180
   \/ bbox3 bbox >= 8505 / 100)%R.


(** ** utils/map-utils.js: the tile URL *)

(** [s.substring(n)] *)
Fixpoint string_drop (n : nat) (s : string) : string :=
  match n, s with
  | O, _ => s
  | S n', String _ s' => string_drop n' s'
  | S _, EmptyString => EmptyString
  end.

(** [s.replace(pattern, replacement)] for a string pattern: the first
    occurrence is replaced. The replacement is taken literally, as it is for
    the coordinates of a tile key, which hold no [$]. *)
Fixpoint replace (pattern replacement s : string) {struct s} : string :=
  if String.prefix pattern s
  then replacement +:+ string_drop (String.length pattern) s
  else match s with
       | EmptyString => EmptyString
       | String c s' => String c (replace pattern replacement s')
       end.

(** [formatTileURL({ tile, url })]; a part that the key lacks is
    [undefined], which [replace] prints as such *)
Definition formatTileURL (tile url : string) : string :=
  let parts := split "/" tile in
  let x := nth 0 parts "undefined" in
  let y := nth 1 parts "undefined" in
  let z := nth 2 parts "undefined" in
  replace "{z}" z (replace "{y}" y (replace "{x}" x url)).

(** a string without an opening brace *)
Fixpoint bracefree (s : string) : Prop :=
  match s with
  | EmptyString => True
  | String c s' => c <> "{"%char /\ bracefree s'
  end.

(** ** utils/webgl-utils.js, as bundled: the draw mode of a feature set *)




(** ** Reading the tile decoder *)

(** the features of a layer that [getLayerPrimitive] gives a primitive
    type *)
Definition of_primitive (type : primitive) (features : list Geometry)
    : list Geometry :=
  filter (fun geojson => getLayerPrimitive geojson = type) features.

(** the vertices of the features of one primitive type, in feature order *)
Definition bucket (earcut : list R -> list nat -> list nat)
    (type : primitive) (features : list Geometry) : option (list number) :=
  @concat number <$> mapM (geometryToVertices earcut) (of_primitive type features).



(** what [fetchTile] pushes for one requested layer: nothing when the tile
    lacks the layer, otherwise the three feature sets with the buckets of
    the layer *)
Definition layer_featureSets (earcut : list R -> list nat -> list nat)
    (vectorTile : VectorTile) (layer : string) : option (list FeatureSet) :=
  match vectorTile !! layer with
  | None => Some []
  | Some features =>
      ps ← bucket earcut polygon features;
      qs ← bucket earcut point features;
      ls ← bucket earcut line features;
      Some [ {| fs_layer := layer; fs_type := polygon; fs_vertices := ps |};
             {| fs_layer := layer; fs_type := point; fs_vertices := qs |};
             {| fs_layer := layer; fs_type := line; fs_vertices := ls |} ]
  end.

(** a feature that [fetchTile] routes to a bucket *)
Definition supported (geojson : Geometry) : Prop :=
  getLayerPrimitive geojson <> unknown.

(** ** Data for the examples *)

(** A stand-in for earcut in the examples: the fan of triangles
    [(0, i, i + 1)] over a single ring. *)
Definition fan_triangulation (vertices : list R) (holes : list nat) : list nat :=
  flat_map (fun i : nat => [0; i; S i]%nat) (seq 1 (length vertices / 2 - 2)).

Definition example_options : mapOptions := {|
  layers := ["water"; "park"];
  tileServerURL := "https://maps.ckochis.com/data/v3/{z}/{x}/{y}.pbf";
  tileBuffer := 1;
  minZoom := 0;
  maxZoom := 18;
  zoom := 13;
|}.

(** the tile of the default centre at zoom 13 *)
Definition brooklyn : Tile := (2412, 3080, 13)%Z.

(** the map after the first [updateTiles] of the constructor, with one tile
    in view *)
Definition example_map : WebGLMap :=
  @updateTiles tilebelt.package (construct example_options) brooklyn brooklyn.

(** a map that shows the whole world at zoom 1 *)
Definition world_options : mapOptions := {|
  layers := ["water"];
  tileServerURL := "https://maps.ckochis.com/data/v3/{z}/{x}/{y}.pbf";
  tileBuffer := 1;
  minZoom := 0;
  maxZoom := 18;
  zoom := 1;
|}.

(** options for a small canvas that starts zoomed out below zoom 0 *)
Definition wide_options : mapOptions := {|
  layers := ["water"];
  tileServerURL := "https://maps.ckochis.com/data/v3/{z}/{x}/{y}.pbf";
  tileBuffer := 1;
  minZoom := -1;
  maxZoom := 18;
  zoom := -1 # 2;
|}.

Definition water : FeatureSet :=
  {| fs_layer := "water"; fs_type := polygon; fs_vertices := [] |}.

(** a cache in which tile 4/4/3 is held, its parent 2/2/2 was never
    requested and its grandparent 1/1/1 is ready *)
Definition example_tiles : gmap string tileData :=
  <["1/1/1" := Arr [water]]> (<["4/4/3" := Arr []]> ∅).

(** a decoded tile with a water layer of one point feature, and no park
    layer *)
Definition example_vectorTile : VectorTile :=
  <["water" := [Point (0, 0)%R]]> ∅.

(** a decoded tile whose water layer has no feature *)
Definition empty_water_tile : VectorTile := <["water" := []]> ∅.

(** a decoded tile whose water layer has a line of a single point *)
Definition broken_water_tile : VectorTile :=
  <["water" := [LineString [(0, 0)%R]]]> ∅.

(** the tile [example_vectorTile] with a layer that is not requested *)
Definition example_vectorTile_with_roads : VectorTile :=
  <["road" := [LineString [(0, 0)%R]]]> example_vectorTile.

(** Decides a closed goal about concrete tiles by computation. *)
Ltac by_computation := apply (bool_decide_unpack _); vm_compute; exact I.

(** * Facts *)

(** ** Projection *)

Section Projection.
Import MercatorCoordinate.
Local Open Scope R_scope.

Lemma mercator_angle_range (lat : R) :
  -90 < lat < 90 -> 0 < PI / 4 + lat * PI / 360 < PI / 2.
Proof.
  intros [Hlo Hhi]. pose proof PI_RGT_0 as Hpi. split; nra.
Qed.

Lemma lngFromMercatorX_mercatorXfromLng (lng : R) :
  lngFromMercatorX (mercatorXfromLng lng) = lng.
Proof. unfold lngFromMercatorX, mercatorXfromLng. field. Qed.

Lemma latFromMercatorY_mercatorYfromLat (lat : R) :
  -90 < lat < 90 -> latFromMercatorY (mercatorYfromLat lat) = lat.
Proof.
  intros Hlat. pose proof PI_RGT_0 as Hpi.
  destruct (mercator_angle_range lat Hlat) as [Ha0 Ha1].
  unfold latFromMercatorY, mercatorYfromLat.
  set (a := PI / 4 + lat * PI / 360) in *.
  replace ((180 - (180 - 180 / PI * ln (tan a)) / 360 * 360) * PI / 180)
    with (ln (tan a)) by (field; lra).
  rewrite exp_ln by (apply tan_gt_0; lra).
  rewrite atan_tan by lra.
  unfold a. field. lra.
Qed.

(** C6. Over the reals, [fromXY] after [fromLngLat] gives back the
    longitude and the latitude, for every longitude in (-180, 180) and
    every latitude in (-85.05, 85.05). *)
Theorem fromXY_fromLngLat (lng lat : R) :
  -180 < lng < 180 -> -8505 / 100 < lat < 8505 / 100 ->
  fromXY (fromLngLat (lng, lat)) = (lng, lat).
Proof.
  intros _ Hlat. unfold fromXY, fromLngLat. cbn [fst snd]. f_equal.
  - rewrite <- (lngFromMercatorX_mercatorXfromLng lng) at 2. f_equal. field.
  - rewrite <- (latFromMercatorY_mercatorYfromLat lat) at 2 by lra.
    f_equal. field.
Qed.

(** The round trip at the default centre of the map. *)
Lemma fromXY_fromLngLat_brooklyn :
  let lng := -739834558 / 10000000 in
  let lat := 406932723 / 10000000 in
  -180 < lng < 180 /\ -8505 / 100 < lat < 8505 / 100
  /\ fromXY (fromLngLat (lng, lat)) = (lng, lat).
Proof.
  intros lng lat.
  assert (Hlng : -180 < lng < 180) by (unfold lng; lra).
  assert (Hlat : -8505 / 100 < lat < 8505 / 100) by (unfold lat; lra).
  split; [exact Hlng|]. split; [exact Hlat|].
  exact (fromXY_fromLngLat lng lat Hlng Hlat).
Defined.
End Projection.

(** ** The triangulator *)

Section Lines.
Import MercatorCoordinate.

Lemma line_push_after (vs : list number) (p : R * R) (c : position) :
  line_push (vs ++ spread p) c
  = (vs ++ spread p) ++ spread p ++ spread (fromLngLat c).
Proof.
  unfold line_push, spread.
  rewrite !length_app. cbn [length].
  replace (length vs + 2 - 2)%nat with (length vs + 0)%nat by lia.
  replace (length vs + 2 - 1)%nat with (length vs + 1)%nat by lia.
  rewrite !app_nth2_plus. cbn [nth].
  by rewrite <- !app_assoc.
Qed.

Lemma fold_line_push (rest : list position) (vs : list number) (p : R * R) :
  fold_left line_push rest (vs ++ spread p)
  = (vs ++ spread p) ++ spec_segments (p :: (fromLngLat <$> rest)).
Proof.
  revert vs p. induction rest as [|c rest IH]; intros vs p.
  - cbn. by rewrite app_nil_r.
  - cbn [fold_left fmap list_fmap]. rewrite line_push_after.
    replace ((vs ++ spread p) ++ spread p ++ spread (fromLngLat c))
      with (((vs ++ spread p) ++ spread p) ++ spread (fromLngLat c))
      by (by rewrite <- !app_assoc).
    rewrite IH. cbn [spec_segments]. fold (fmap (M:=list) fromLngLat rest).
    by rewrite <- !app_assoc.
Qed.

Lemma spec_segments_length (ps : list (R * R)) :
  length (spec_segments ps) = (4 * (length ps - 1))%nat.
Proof.
  induction ps as [|p [|q ps] IH]; [done..|].
  change (spec_segments (p :: q :: ps))
    with (spread p ++ spread q ++ spec_segments (q :: ps)).
  rewrite !length_app, IH. cbn [length spread]. lia.
Qed.

(** C5. A LineString of k >= 2 points becomes one segment per pair of
    consecutive points, 4 * (k - 1) numbers in all, every intermediate
    point twice. *)
Theorem verticesFromLine_segments (coordinates : list position) :
  (2 <= length coordinates)%nat ->
  exists vs : list number,
    verticesFromLine coordinates = Some vs
    /\ length vs = (4 * (length coordinates - 1))%nat
    /\ vs = spec_segments (fromLngLat <$> coordinates).
Proof.
  intros Hlen. destruct coordinates as [|c0 [|c1 rest]]; cbn in Hlen; try lia.
  assert (Hvs : verticesFromLine (c0 :: c1 :: rest)
                = Some (spec_segments (fromLngLat <$> c0 :: c1 :: rest))).
  { unfold verticesFromLine. f_equal.
    rewrite (fold_line_push rest (spread (fromLngLat c0)) (fromLngLat c1)).
    cbn [fmap list_fmap spec_segments]. by rewrite <- !app_assoc. }
  eexists. split; [exact Hvs|]. split; [|done].
  rewrite spec_segments_length, length_fmap. done.
Qed.

(** A line of three points. *)
Lemma verticesFromLine_segments_three :
  let coordinates : list position := [(0, 0); (1, 1); (2, 2)]%R in
  (2 <= length coordinates)%nat
  /\ exists vs : list number,
       verticesFromLine coordinates = Some vs
       /\ length vs = (4 * (length coordinates - 1))%nat
       /\ vs = spec_segments (fromLngLat <$> coordinates).
Proof.
  intros coordinates.
  assert (Hlen : (2 <= length coordinates)%nat) by (cbn; lia).
  split; [exact Hlen|]. exact (verticesFromLine_segments coordinates Hlen).
Defined.

(** Two points give one segment of 4 numbers. *)
Example verticesFromLine_two_points (a b : position) :
  verticesFromLine [a; b] = Some (spread (fromLngLat a) ++ spread (fromLngLat b))
  /\ length (spread (fromLngLat a) ++ spread (fromLngLat b)) = 4%nat.
Proof. done. Qed.

(** Three points give two segments of 8 numbers, the middle point
    twice. *)
Example verticesFromLine_three_points (a b c : position) :
  verticesFromLine [a; b; c]
  = Some (spread (fromLngLat a) ++ spread (fromLngLat b)
            ++ spread (fromLngLat b) ++ spread (fromLngLat c)).
Proof. done. Qed.

(** A LineString of fewer than two points makes [verticesFromLine]
    throw. *)
Lemma verticesFromLine_short (coordinates : list position) :
  (length coordinates < 2)%nat -> verticesFromLine coordinates = None.
Proof. destruct coordinates as [|c0 [|c1 rest]]; cbn; [done..|lia]. Qed.
End Lines.

Section Polygons.
Variable earcut : list R -> list nat -> list nat.

Lemma append_app (arr1 arr2 : list number) : append arr1 arr2 = arr1 ++ arr2.
Proof.
  unfold append. revert arr1.
  induction arr2 as [|n arr2 IH]; intros arr1; cbn.
  - by rewrite app_nil_r.
  - rewrite IH. by rewrite <- app_assoc.
Qed.

Lemma forEach_append_mapM {A} (f : A -> option (list number))
    (coordinates : list A) (positions : list number) :
  forEach_append f coordinates positions
  = (fun vss => positions ++ concat vss) <$> mapM f coordinates.
Proof.
  revert positions. induction coordinates as [|c cs IH]; intros positions; cbn.
  - by rewrite app_nil_r.
  - destruct (f c) as [vs|]; cbn; [|done].
    rewrite IH, append_app. destruct (mapM f cs) as [vss|]; cbn; [|done].
    by rewrite <- app_assoc.
Qed.

Lemma flatten_holes_length (holeIndex : nat) (prev : list position)
    (rest : list (list position)) :
  length (flatten_holes holeIndex prev rest) = length rest.
Proof.
  revert holeIndex prev. induction rest as [|r rest IH]; intros; cbn; [done|].
  by rewrite IH.
Qed.

Lemma geometryToVertices_MultiPolygon (polygons : list (list (list position))) :
  geometryToVertices earcut (MultiPolygon polygons)
  = @concat number <$> mapM (outer_ring_vertices earcut) polygons.
Proof.
  cbn [geometryToVertices]. rewrite forEach_append_mapM.
  assert (Hf : forall p : list (list position),
            (match p with
             | ring0 :: _ => verticesFromPolygon earcut [ring0]
             | [] => None
             end) = outer_ring_vertices earcut p) by (by intros [|r p]).
  rewrite (mapM_ext _ _ polygons Hf).
  by destruct (mapM (outer_ring_vertices earcut) polygons).
Qed.

(** C7. A MultiPolygon is the concatenation of the triangulations of the
    outer ring of each member: the triangulation of a member gets the
    vertices of its first ring and no hole, whatever inner rings the
    member has. A Polygon hands the vertices of all its rings to the
    triangulation, with the start index of every inner ring as a hole. *)
Theorem MultiPolygon_outer_rings_only :
  (forall polygons : list (list (list position)),
     geometryToVertices earcut (MultiPolygon polygons)
     = @concat number <$> mapM (outer_ring_vertices earcut) polygons)
  /\ (forall (p : position) (ring : list position)
        (inner : list (list position)),
        let vs := flatten_vertices [p :: ring] in
        outer_ring_vertices earcut ((p :: ring) :: inner)
        = Some (triangle_vertices vs (earcut vs [])))
  /\ (forall (p : position) (ring : list position)
        (inner : list (list position)),
        let vs := flatten_vertices ((p :: ring) :: inner) in
        let hs := flatten_holes 0 (p :: ring) inner in
        geometryToVertices earcut (Polygon ((p :: ring) :: inner))
        = Some (triangle_vertices vs (earcut vs hs))
        /\ length hs = length inner).
Proof.
  split; [apply geometryToVertices_MultiPolygon|]. split.
  - done.
  - intros p ring inner vs hs. split; [done|]. apply flatten_holes_length.
Qed.

(** The holes of the members of a MultiPolygon do not matter. *)
Corollary MultiPolygon_without_holes (polygons : list (list (list position))) :
  geometryToVertices earcut (MultiPolygon polygons)
  = geometryToVertices earcut (MultiPolygon (take 1 <$> polygons)).
Proof.
  rewrite !geometryToVertices_MultiPolygon. f_equal.
  induction polygons as [|polygon polygons IH]; [done|].
  cbn [fmap list_fmap mapM]. rewrite <- IH. by destruct polygon.
Qed.
End Polygons.

(** With a triangulation that looks at its holes, a Polygon with a hole and
    the MultiPolygon of that one member differ. *)
Example Polygon_keeps_holes :
  let earcut := fun (_ : list R) (holes : list nat) => holes in
  let square : list position := [(0, 0); (4, 0); (4, 4); (0, 4); (0, 0)]%R in
  let hole : list position := [(1, 1); (2, 1); (1, 2); (1, 1)]%R in
  geometryToVertices earcut (MultiPolygon [[square; hole]]) = Some []
  /\ (length <$> geometryToVertices earcut (Polygon [square; hole])) = Some 2%nat.
Proof. done. Qed.


(** ** The tile decoder *)

Section DecoderFacts.
Variable earcut : list R -> list nat -> list nat.

Lemma convert_layers_headers (vectorTile : VectorTile) (layers : list string)
    (acc tileData : list FeatureSet) :
  convert_layers earcut vectorTile layers acc = Some tileData ->
  fs_header <$> tileData
  = (fs_header <$> acc) ++ (layers ≫= layer_headers vectorTile).
Proof.
  revert acc. induction layers as [|layer layers IH]; intros acc Hconv.
  - cbn in Hconv. injection Hconv as <-. cbn. by rewrite app_nil_r.
  - cbn [convert_layers] in Hconv. rewrite bind_cons. unfold layer_headers at 1.
    destruct (vectorTile !! layer) as [features|].
    + destruct (convert_features earcut features _) as [b|]; [|done].
      cbn in Hconv. apply IH in Hconv. rewrite Hconv.
      rewrite !fmap_app. cbn. by rewrite <- !app_assoc.
    + by apply IH in Hconv.
Qed.

(** C4. When [fetchTile] returns, its [tileData] lists, for each requested
    layer in order, the trio polygon, point, line if the tile has the layer
    (whatever the buckets hold), and nothing if it has not. *)
Theorem fetchTile_layer_trios (vectorTile : VectorTile)
    (layers : list string) (tileData : list FeatureSet) :
  fetchTile earcut (Some vectorTile) layers = Some tileData ->
  fs_header <$> tileData = layers ≫= layer_headers vectorTile.
Proof.
  intros Hfetch. cbn in Hfetch.
  by apply convert_layers_headers in Hfetch.
Qed.

(** Three feature sets for each requested layer that the tile has. *)
Corollary fetchTile_length (vectorTile : VectorTile)
    (layers : list string) (tileData : list FeatureSet) :
  fetchTile earcut (Some vectorTile) layers = Some tileData ->
  length tileData
  = (3 * length (filter (fun layer => is_Some (vectorTile !! layer)) layers))%nat.
Proof.
  intros Hfetch. cbn in Hfetch. apply convert_layers_headers in Hfetch.
  apply (f_equal length) in Hfetch. rewrite length_fmap in Hfetch.
  rewrite Hfetch. cbn [fmap list_fmap app]. clear Hfetch.
  induction layers as [|layer layers IH]; [done|].
  rewrite bind_cons, length_app, IH. unfold layer_headers.
  destruct (vectorTile !! layer) as [features|] eqn:Hlayer.
  - rewrite filter_cons_True by (by rewrite Hlayer). cbn [length]. lia.
  - rewrite filter_cons_False by (rewrite Hlayer; by intros [? ?]). done.
Qed.

Lemma convert_features_is_Some (features : list Geometry) (b : buckets) :
  Forall (converts earcut) features ->
  is_Some (convert_features earcut features b).
Proof.
  intros Hall. revert b.
  induction Hall as [|g features [vs Hg] _ IH]; intros b.
  - by eexists.
  - cbn [convert_features]. rewrite Hg.
    destruct (getLayerPrimitive g); cbn; apply IH.
Qed.

(** [fetchTile] does return when the request succeeds and every geometry of
    the requested layers converts. *)
Lemma fetchTile_returns (vectorTile : VectorTile) (layers : list string) :
  (forall layer features,
     layer ∈ layers -> vectorTile !! layer = Some features ->
     Forall (converts earcut) features) ->
  is_Some (fetchTile earcut (Some vectorTile) layers).
Proof.
  intros Hall. cbn. generalize (@nil FeatureSet) as acc.
  induction layers as [|layer layers IH]; intros acc.
  - by eexists.
  - cbn [convert_layers]. destruct (vectorTile !! layer) as [features|] eqn:Hl.
    + destruct (convert_features_is_Some features
                  {| polygons := []; points := []; lines := [] |}) as [b ->].
      { eapply Hall; [|done]. left. }
      cbn. apply IH. intros l fs Hin. apply Hall. by right.
    + apply IH. intros l fs Hin. apply Hall. by right.
Qed.

(** A rejected request or a throw of the decoder rejects [fetchTile]. *)
Lemma fetchTile_rejected (layers : list string) :
  fetchTile earcut None layers = None.
Proof. done. Qed.
End DecoderFacts.

(** A tile with a water layer and no park layer: three feature sets, all for
    water. *)
Lemma fetchTile_layer_trios_example :
  let tileData :=
    [ {| fs_layer := "water"; fs_type := polygon; fs_vertices := [] |};
      {| fs_layer := "water"; fs_type := point;
         fs_vertices := spread (MercatorCoordinate.fromLngLat (0, 0)%R) |};
      {| fs_layer := "water"; fs_type := line; fs_vertices := [] |} ] in
  fetchTile fan_triangulation (Some example_vectorTile) (layers example_options)
    = Some tileData
  /\ fs_header <$> tileData
     = layers example_options ≫= layer_headers example_vectorTile.
Proof.
  intros tileData.
  assert (Hfetch : fetchTile fan_triangulation (Some example_vectorTile)
                     (layers example_options) = Some tileData) by reflexivity.
  split; [exact Hfetch|].
  exact (fetchTile_layer_trios fan_triangulation example_vectorTile
           (layers example_options) tileData Hfetch).
Defined.

(** ** Tile keys *)

Section Keys.
Lemma split_sepfree (s : string) : sepfree s -> split "/" s = [s].
Proof.
  induction s as [|c s IH]; cbn; [done|]. intros [Hc Hs].
  destruct (Ascii.eqb_spec c "/") as [->|_]; [done|]. by rewrite IH.
Qed.

Lemma split_app_sep (s rest : string) :
  sepfree s -> split "/" (s +:+ String "/" rest) = s :: split "/" rest.
Proof.
  induction s as [|c s IH]; [done|]. intros [Hc Hs].
  change (String c s +:+ String "/" rest) with (String c (s +:+ String "/" rest)).
  cbn [split].
  destruct (Ascii.eqb_spec c "/") as [->|_]; [done|]. by rewrite IH.
Qed.

Lemma string_of_uint_sepfree (d : Decimal.uint) :
  sepfree (NilEmpty.string_of_uint d).
Proof. induction d; cbn; try done; split; done. Qed.

Lemma toString_sepfree (n : Z) : sepfree (toString n).
Proof.
  unfold toString, NilZero.string_of_int, NilZero.string_of_uint.
  destruct (Z.to_int n) as [d|d]; destruct d; cbn;
    repeat split; try done; apply string_of_uint_sepfree.
Qed.

Lemma split_join (x y z : Z) :
  split "/" (join (x, y, z)) = [toString x; toString y; toString z].
Proof.
  unfold join.
  change (toString x +:+ "/" +:+ toString y +:+ "/" +:+ toString z)
    with (toString x +:+ String "/" (toString y +:+ String "/" (toString z))).
  rewrite split_app_sep by apply toString_sepfree.
  rewrite split_app_sep by apply toString_sepfree.
  by rewrite split_sepfree by apply toString_sepfree.
Qed.

Lemma Number_toString (n : Z) : Number (toString n) = Some n.
Proof.
  unfold Number, toString. rewrite NilZero.isi.
  - cbn. by rewrite DecimalZ.of_to.
  - destruct n as [|p|p]; cbn; [done| |done].
    intros [=Hp]. by apply Unsigned.to_uint_nonnil in Hp.
  - destruct n as [|p|p]; cbn; [done|done|].
    intros [=Hp]. by apply Unsigned.to_uint_nonnil in Hp.
Qed.

(** Splitting a key and reading its numbers gives the tile back, so distinct
    tiles have distinct keys. *)
Lemma join_inj (t t' : Tile) : join t = join t' -> t = t'.
Proof.
  destruct t as [[x y] z], t' as [[x' y'] z']. intros Hjoin.
  assert (Hsplit : Number <$> split "/" (join (x, y, z))
                   = Number <$> split "/" (join (x', y', z')))
    by (by rewrite Hjoin).
  rewrite !split_join in Hsplit. cbn in Hsplit.
  rewrite !Number_toString in Hsplit. congruence.
Qed.

Lemma Qltb_inject_pow2 (x z : Z) :
  (0 <= z)%Z -> Qltb (inject_Z x) (Math_pow2 z) = true <-> (x < 2 ^ z)%Z.
Proof.
  intros Hz. unfold Qltb, Math_pow2.
  rewrite negb_true_iff, <- not_true_iff_false, Qle_bool_iff.
  change (2%Q) with (inject_Z 2). rewrite <- Qpower.Zpower_Qpower by done.
  rewrite <- Zle_Qle. lia.
Qed.

(** The range filter keeps exactly the keys of valid tiles. *)
Lemma inRange_join (t : Tile) : inRange (join t) = true <-> valid_tile t.
Proof.
  destruct t as [[x y] z]. unfold inRange, valid_tile.
  rewrite split_join. cbn [fmap list_fmap]. rewrite !Number_toString.
  rewrite !andb_true_iff, !Z.leb_le.
  split.
  - intros [[[Hx0 Hx] [Hy0 Hy]] [Hz0 Hz]].
    apply Qltb_inject_pow2 in Hx, Hy; done.
  - intros [[Hx0 Hx] [[Hy0 Hy] [Hz0 Hz]]].
    rewrite !Qltb_inject_pow2 by done. done.
Qed.
End Keys.


(** ** The loading loop *)

Section Loading.
Lemma Set_add_elem_of (s : list string) (x y : string) :
  y ∈ Set_add s x <-> y ∈ s \/ y = x.
Proof.
  unfold Set_add. case_decide as Hx.
  - split; [by left|]. intros [Hy| ->]; done.
  - rewrite elem_of_app, list_elem_of_singleton. done.
Qed.

Lemma Set_add_NoDup (s : list string) (x : string) :
  NoDup s -> NoDup (Set_add s x).
Proof.
  intros Hs. unfold Set_add. case_decide as Hx; [done|].
  apply NoDup_app. split; [done|]. split; [|apply NoDup_singleton].
  intros y Hy ->%list_elem_of_singleton. done.
Qed.

Lemma fold_Set_add (l s : list string) :
  NoDup s ->
  NoDup (fold_left Set_add l s)
  /\ forall y, y ∈ fold_left Set_add l s <-> y ∈ s \/ y ∈ l.
Proof.
  revert s. induction l as [|x l IH]; intros s Hs; cbn.
  - split; [done|]. intros y. rewrite elem_of_nil. tauto.
  - destruct (IH (Set_add s x) (Set_add_NoDup s x Hs)) as [Hnd Hel].
    split; [done|]. intros y. rewrite Hel, Set_add_elem_of, elem_of_cons. tauto.
Qed.

Lemma new_Set_NoDup (l : list string) : NoDup (new_Set l).
Proof. apply fold_Set_add, NoDup_nil_2. Qed.

Lemma new_Set_elem_of (l : list string) (y : string) : y ∈ new_Set l <-> y ∈ l.
Proof.
  unfold new_Set.
  destruct (fold_Set_add l [] (NoDup_nil_2)) as [_ Hel].
  rewrite Hel, elem_of_nil. tauto.
Qed.

Lemma tiles_get_insert (tiles : gmap string tileData) (k k' : string)
    (v : tileData) :
  tiles_get (<[k := v]> tiles) k' = if decide (k = k') then v else tiles_get tiles k'.
Proof. unfold tiles_get. rewrite lookup_insert. by case_decide. Qed.

Lemma tiles_get_insert_eq (tiles : gmap string tileData) (k : string)
    (v : tileData) :
  tiles_get (<[k := v]> tiles) k = v.
Proof. by rewrite tiles_get_insert, decide_True. Qed.

Lemma tiles_get_insert_ne (tiles : gmap string tileData) (k k' : string)
    (v : tileData) :
  k <> k' -> tiles_get (<[k := v]> tiles) k' = tiles_get tiles k'.
Proof. intros Hne. by rewrite tiles_get_insert, decide_False. Qed.

(** The loading loop over distinct tiles: it posts one request for each
    listed tile whose entry is falsy, in order, and holds those tiles with
    an empty array; every other entry is left alone. *)
Lemma load_tiles_cons (o : mapOptions) (tile : string) (toLoad : list string)
    (st : gmap string tileData * list request) :
  load_tiles o (tile :: toLoad) st
  = load_tiles o toLoad (load_tile (layers o) (tileServerURL o) st tile).
Proof. done. Qed.

Lemma load_tiles_NoDup (o : mapOptions) (toLoad : list string)
    (tiles : gmap string tileData) (worker : list request) :
  NoDup toLoad ->
  (load_tiles o toLoad (tiles, worker)).2
    = worker ++ (request_for o <$> List.filter (unheld tiles) toLoad)
  /\ forall k, tiles_get (load_tiles o toLoad (tiles, worker)).1 k
       = if decide (k ∈ toLoad /\ unheld tiles k = true) then Arr []
         else tiles_get tiles k.
Proof.
  revert tiles worker.
  induction toLoad as [|tile toLoad IH]; intros tiles worker Hnd.
  - cbn. split; [by rewrite app_nil_r|]. intros k. case_decide as Hk; [|done].
    destruct Hk as [Hk _]. by apply elem_of_nil in Hk.
  - apply NoDup_cons in Hnd as [Hnotin Hnd].
    rewrite load_tiles_cons. unfold load_tile. cbn [fst snd List.filter].
    unfold unheld at 1 3.
    destruct (truthy (tiles_get tiles tile)) eqn:Htruthy; cbn [negb].
    + destruct (IH tiles worker Hnd) as [Hposted Htiles].
      split; [done|]. intros k. rewrite Htiles.
      destruct (decide (k = tile)) as [->|Hne].
      * rewrite !decide_False; [done| |].
        -- intros [_ Hun]. unfold unheld in Hun. by rewrite Htruthy in Hun.
        -- by intros [? _].
      * apply decide_ext. rewrite elem_of_cons. intuition congruence.
    + destruct (IH (<[tile := Arr []]> tiles)
                  (worker ++ [request_for o tile]) Hnd) as [Hposted Htiles].
      assert (Hsame : List.filter (unheld (<[tile := Arr []]> tiles)) toLoad
                      = List.filter (unheld tiles) toLoad).
      { apply filter_ext_in. intros k Hk%list_elem_of_In.
        unfold unheld. rewrite tiles_get_insert_ne; [done|].
        by intros ->. }
      split.
      * change {| req_tile := tile; req_layers := layers o;
                  req_url := tileServerURL o |} with (request_for o tile).
        rewrite Hposted, Hsame. cbn. by rewrite <- app_assoc.
      * intros k.
        change {| req_tile := tile; req_layers := layers o;
                  req_url := tileServerURL o |} with (request_for o tile).
        rewrite Htiles. clear Htiles Hposted IH.
        destruct (decide (tile = k)) as [->|Hne].
        -- assert (Hun : unheld tiles k = true)
             by (by unfold unheld; rewrite Htruthy).
           rewrite decide_False by (by intros [? _]).
           rewrite tiles_get_insert_eq.
           by rewrite decide_True by (split; [apply list_elem_of_here|done]).
        -- assert (Hun : unheld (<[tile:=Arr []]> tiles) k = unheld tiles k)
             by (by unfold unheld; rewrite tiles_get_insert_ne).
           rewrite Hun, tiles_get_insert_ne by done.
           apply decide_ext. rewrite elem_of_cons. intuition congruence.
Qed.
End Loading.

(** ** The fetch coordinator *)

Section EngineFacts.
Context `{Tilebelt}.
Variable earcut : list R -> list nat -> list nat.

Lemma loop_range_elem_of (lo hi x : Z) :
  x ∈ loop_range lo hi <-> (lo <= x <= hi)%Z.
Proof.
  unfold loop_range. rewrite list_elem_of_fmap. split.
  - intros (i & -> & Hi%elem_of_seq). lia.
  - intros Hx. exists (Z.to_nat (x - lo)). split; [lia|].
    apply elem_of_seq. lia.
Qed.

Lemma tilesToLoad_NoDup (inView buffered : list Tile) :
  NoDup (tilesToLoad inView buffered).
Proof.
  apply NoDup_ListNoDup, List.NoDup_filter, NoDup_ListNoDup, new_Set_NoDup.
Qed.

Lemma tilesToLoad_elem_of (inView buffered : list Tile) (k : string) :
  k ∈ tilesToLoad inView buffered
  <-> k ∈ candidates inView buffered /\ inRange k = true.
Proof.
  unfold tilesToLoad.
  by rewrite list_elem_of_In, filter_In, <- list_elem_of_In, new_Set_elem_of.
Qed.

Lemma updateTiles_loads (m : WebGLMap) (minTile maxTile : Tile) :
  tiles (updateTiles m minTile maxTile)
    = (load_tiles (options m) (pass_tilesToLoad m minTile maxTile)
         (tiles m, tileWorker m)).1
  /\ tileWorker (updateTiles m minTile maxTile)
    = (load_tiles (options m) (pass_tilesToLoad m minTile maxTile)
         (tiles m, tileWorker m)).2.
Proof. done. Qed.

Lemma posted_by_unheld (m : WebGLMap) (minTile maxTile : Tile) :
  posted_by m minTile maxTile
  = request_for (options m)
      <$> List.filter (unheld (tiles m)) (pass_tilesToLoad m minTile maxTile).
Proof.
  unfold posted_by. rewrite (proj2 (updateTiles_loads m minTile maxTile)).
  destruct (load_tiles_NoDup (options m) (pass_tilesToLoad m minTile maxTile)
              (tiles m) (tileWorker m)) as [-> _];
    [apply tilesToLoad_NoDup|].
  by rewrite drop_app_length.
Qed.

Lemma updateTiles_tileWorker (m : WebGLMap) (minTile maxTile : Tile) :
  tileWorker (updateTiles m minTile maxTile)
  = tileWorker m ++ posted_by m minTile maxTile.
Proof.
  rewrite posted_by_unheld, (proj2 (updateTiles_loads m minTile maxTile)).
  by destruct (load_tiles_NoDup (options m) (pass_tilesToLoad m minTile maxTile)
              (tiles m) (tileWorker m)) as [-> _];
    [apply tilesToLoad_NoDup|].
Qed.

Lemma updateTiles_tiles (m : WebGLMap) (minTile maxTile : Tile) (k : string) :
  tiles_get (tiles (updateTiles m minTile maxTile)) k
  = if decide (k ∈ pass_tilesToLoad m minTile maxTile
               /\ unheld (tiles m) k = true)
    then Arr [] else tiles_get (tiles m) k.
Proof.
  rewrite (proj1 (updateTiles_loads m minTile maxTile)).
  by destruct (load_tiles_NoDup (options m) (pass_tilesToLoad m minTile maxTile)
              (tiles m) (tileWorker m)) as [_ ->];
    [apply tilesToLoad_NoDup|].
Qed.

Lemma posted_by_elem_of (m : WebGLMap) (minTile maxTile : Tile) (r : request) :
  r ∈ posted_by m minTile maxTile
  <-> r = request_for (options m) (req_tile r)
      /\ req_tile r ∈ pass_tilesToLoad m minTile maxTile
      /\ unheld (tiles m) (req_tile r) = true.
Proof.
  rewrite posted_by_unheld, list_elem_of_fmap. split.
  - intros (k & -> & Hk). by apply list_elem_of_In, filter_In in Hk as [?%list_elem_of_In ?].
  - intros (Hr & Hin & Hun). exists (req_tile r). split; [done|].
    apply list_elem_of_In, filter_In. by rewrite <- list_elem_of_In.
Qed.

Lemma req_tile_request_for (o : mapOptions) (l : list string) :
  req_tile <$> (request_for o <$> l) = l.
Proof. induction l as [|k l IH]; [done|]. cbn. by rewrite IH. Qed.

Lemma posted_by_NoDup (m : WebGLMap) (minTile maxTile : Tile) :
  NoDup (req_tile <$> posted_by m minTile maxTile).
Proof.
  rewrite posted_by_unheld, req_tile_request_for.
  apply NoDup_ListNoDup, List.NoDup_filter, NoDup_ListNoDup, tilesToLoad_NoDup.
Qed.

(** A held tile is skipped by a pass, and stays held. *)
Lemma updateTiles_skips_held (m : WebGLMap) (minTile maxTile : Tile)
    (k : string) :
  tiles_get (tiles m) k = Arr [] ->
  (forall r, r ∈ posted_by m minTile maxTile -> req_tile r <> k)
  /\ tiles_get (tiles (updateTiles m minTile maxTile)) k = Arr [].
Proof.
  intros Hheld. split.
  - intros r (_ & _ & Hun)%posted_by_elem_of Heq. subst k.
    unfold unheld in Hun. by rewrite Hheld in Hun.
  - rewrite updateTiles_tiles. by case_decide.
Qed.

Lemma updateTiles_coordinated (m : WebGLMap) (minTile maxTile : Tile) :
  coordinated m -> coordinated (updateTiles m minTile maxTile).
Proof.
  intros [Hnd Hheld]. split.
  - rewrite updateTiles_tileWorker, fmap_app. apply NoDup_app.
    split; [done|]. split; [|apply posted_by_NoDup].
    intros k (r & -> & Hr)%list_elem_of_fmap (r' & Hk & Hr')%list_elem_of_fmap.
    apply (updateTiles_skips_held m minTile maxTile _ (Hheld r Hr)) in Hr'.
    done.
  - intros r. rewrite updateTiles_tileWorker, elem_of_app. intros [Hr|Hr].
    + by apply updateTiles_skips_held, Hheld.
    + apply posted_by_elem_of in Hr as (_ & Hin & Hun).
      rewrite updateTiles_tiles. by rewrite decide_True.
Qed.

Lemma reply_coordinated (m : WebGLMap) (before after : list request)
    (event : request) (workerEvent : reply) :
  tileWorker m = before ++ event :: after ->
  rep_tile workerEvent = req_tile event ->
  coordinated m ->
  coordinated (handleTileWorker (take_request m (before ++ after)) workerEvent).
Proof.
  intros Hworker Htile [Hnd Hheld]. rewrite Hworker in Hnd, Hheld.
  rewrite fmap_app, fmap_cons in Hnd.
  apply NoDup_app in Hnd as (Hbefore & Hdisj & [Hnotin Hafter]%NoDup_cons).
  split; cbn [handleTileWorker take_request tileWorker tiles].
  - rewrite fmap_app. apply NoDup_app. split; [done|]. split; [|done].
    intros k Hk Hk'. apply (Hdisj k Hk). by right.
  - intros r Hr. rewrite Htile, tiles_get_insert_ne.
    + apply Hheld. rewrite elem_of_app, elem_of_cons.
      apply elem_of_app in Hr. tauto.
    + intros Heq. apply elem_of_app in Hr as [Hr|Hr].
      * apply (Hdisj (req_tile r)); [by apply list_elem_of_fmap_2|].
        rewrite <- Heq. left.
      * apply Hnotin. rewrite Heq. by apply list_elem_of_fmap_2.
Qed.

Lemma tile_worker_tile (event : request) (response : option VectorTile) :
  rep_tile (tile_worker earcut event response) = req_tile event.
Proof. unfold tile_worker. by destruct (fetchTile _ _ _). Qed.

Lemma step_coordinated (m m' : WebGLMap) :
  step earcut m m' -> coordinated m -> coordinated m'.
Proof.
  intros Hstep Hm.
  destruct Hstep as [m o|m a b|m d a b|m before event after resp Hw].
  - done.
  - by apply updateTiles_coordinated.
  - by apply updateTiles_coordinated.
  - eapply reply_coordinated; [done|apply tile_worker_tile|done].
Qed.

Lemma construct_coordinated (o : mapOptions) : coordinated (construct o).
Proof.
  split; cbn; [apply NoDup_nil_2|]. intros r Hr. by apply elem_of_nil in Hr.
Qed.

Lemma steps_coordinated (m m' : WebGLMap) :
  rtc (step earcut) m m' -> coordinated m -> coordinated m'.
Proof.
  induction 1 as [m|m1 m2 m3 Hstep _ IH]; [done|].
  intros Hm1. by eapply IH, step_coordinated.
Qed.

Lemma reachable_coordinated (o : mapOptions) (m : WebGLMap) :
  reachable earcut o m -> coordinated m.
Proof.
  intros Hreach. eapply steps_coordinated; [exact Hreach|].
  apply construct_coordinated.
Qed.

(** C1. At every moment of every run, the requests not answered yet are for
    distinct tiles, and a tile with an unanswered request holds the empty
    placeholder, so that any further pass of [updateTiles], at any zoom and
    viewport, posts no request for it and leaves the placeholder in place. *)
Theorem at_most_one_fetch_per_tile (o : mapOptions) (m : WebGLMap) :
  reachable earcut o m ->
  NoDup (req_tile <$> tileWorker m)
  /\ forall r : request, r ∈ tileWorker m ->
       tiles_get (tiles m) (req_tile r) = Arr []
       /\ forall (zoom : Q) (minTile maxTile : Tile),
            (forall r' : request,
               r' ∈ posted_by (set_zoom m zoom) minTile maxTile ->
               req_tile r' <> req_tile r)
            /\ tiles_get (tiles (updateTiles (set_zoom m zoom) minTile maxTile))
                 (req_tile r) = Arr [].
Proof.
  intros [Hnd Hheld]%reachable_coordinated. split; [done|].
  intros r Hr. split; [by apply Hheld|]. intros zoom minTile maxTile.
  apply updateTiles_skips_held. by apply Hheld.
Qed.

(** C3. A candidate of a pass whose tile is out of range is not in the load
    list, and the pass posts no request for it. *)
Theorem out_of_range_never_requested (m : WebGLMap) (minTile maxTile t : Tile) :
  let z := tileZoom (camera_zoom m) in
  let inView := viewTiles minTile maxTile z in
  let buffered := bufferTiles (tileBuffer (options m)) minTile maxTile z in
  join t ∈ new_Set (candidates inView buffered) ->
  (~ valid_tile t) ->
  (join t ∉ tilesToLoad inView buffered)
  /\ forall r : request, r ∈ posted_by m minTile maxTile -> req_tile r <> join t.
Proof.
  intros z inView buffered _ Hinvalid.
  assert (Hout : join t ∉ tilesToLoad inView buffered).
  { intros [_ Hin]%tilesToLoad_elem_of. by apply Hinvalid, inRange_join. }
  split; [done|].
  intros r (_ & Hin & _)%posted_by_elem_of Heq. apply Hout.
  by rewrite <- Heq.
Qed.

(** Every request of a pass is for a valid tile. *)
Lemma posted_by_valid (m : WebGLMap) (minTile maxTile : Tile) (r : request) :
  r ∈ posted_by m minTile maxTile ->
  exists t : Tile, req_tile r = join t /\ valid_tile t.
Proof.
  intros (_ & [Hcand Hrange]%tilesToLoad_elem_of & _)%posted_by_elem_of.
  assert (Ht : exists t : Tile, req_tile r = join t).
  { unfold candidates in Hcand.
    apply elem_of_app in Hcand as [Hc|Hc];
      apply list_elem_of_fmap in Hc as (t & -> & _); by exists t. }
  destruct Ht as [t Ht]. exists t. split; [done|].
  apply inRange_join. by rewrite <- Ht.
Qed.

(** In every run, every request that waits for an answer is for a valid
    tile. *)
Lemma requests_valid (o : mapOptions) (m : WebGLMap) :
  reachable earcut o m ->
  forall r : request, r ∈ tileWorker m ->
    exists t : Tile, req_tile r = join t /\ valid_tile t.
Proof.
  unfold reachable.
  assert (Hsteps : forall m0 m1 : WebGLMap,
            rtc (step earcut) m0 m1 ->
            (forall r, r ∈ tileWorker m0 ->
               exists t : Tile, req_tile r = join t /\ valid_tile t) ->
            forall r, r ∈ tileWorker m1 ->
              exists t : Tile, req_tile r = join t /\ valid_tile t).
  { induction 1 as [m0|m0 m1 m2 Hstep _ IH]; [done|]. intros Hm0. apply IH.
    destruct Hstep as [m0 o'|m0 a b|m0 d a b|m0 before event after resp Hw].
    - done.
    - intros r. rewrite updateTiles_tileWorker, elem_of_app.
      intros [Hr|Hr]; [by apply Hm0|by eapply posted_by_valid].
    - intros r. rewrite updateTiles_tileWorker, elem_of_app.
      intros [Hr|Hr]; [by apply Hm0|by eapply posted_by_valid].
    - intros r Hr. apply Hm0. rewrite Hw, elem_of_app, elem_of_cons.
      cbn in Hr. apply elem_of_app in Hr. tauto. }
  intros Hreach. apply (Hsteps _ _ Hreach).
  intros r Hr. by apply elem_of_nil in Hr.
Qed.

Lemma bufferTiles_elem_of (tileBuffer : Z) (minTile maxTile : Tile) (z : Z)
    (t : Tile) :
  t ∈ bufferTiles tileBuffer minTile maxTile z
  <-> exists bufX bufY : Z,
        (Z.max minTile.1.1 0 - tileBuffer <= bufX <= maxTile.1.1 + tileBuffer)%Z
        /\ (Z.max minTile.1.2 0 - tileBuffer <= bufY <= maxTile.1.2 + tileBuffer)%Z
        /\ t ∈ [ (bufX, bufY, z);
                 getParent (bufX, bufY, z);
                 getParent (getParent (bufX, bufY, z)) ].
Proof.
  destruct minTile as [[minTile0 minTile1] ?], maxTile as [[maxTile0 maxTile1] ?].
  unfold bufferTiles. cbn [fst snd]. rewrite list_elem_of_bind. split.
  - intros (bufX & (bufY & Ht & Hy%loop_range_elem_of)%list_elem_of_bind
                 & Hx%loop_range_elem_of).
    by exists bufX, bufY.
  - intros (bufX & bufY & Hx & Hy & Ht). exists bufX.
    split; [|by apply loop_range_elem_of].
    apply list_elem_of_bind. exists bufY. split; [done|].
    by apply loop_range_elem_of.
Qed.

(** C8. For every tile of the buffered rectangle, the buffered tiles hold
    the tile, its parent and its grandparent, and so do the candidates, before
    duplicates are removed and the range filter runs. *)
Theorem buffered_tiles_with_two_ancestors (tileBuffer : Z)
    (minTile maxTile : Tile) (z bufX bufY : Z) :
  (Z.max minTile.1.1 0 - tileBuffer <= bufX <= maxTile.1.1 + tileBuffer)%Z ->
  (Z.max minTile.1.2 0 - tileBuffer <= bufY <= maxTile.1.2 + tileBuffer)%Z ->
  let buffered := bufferTiles tileBuffer minTile maxTile z in
  let loadList := candidates (viewTiles minTile maxTile z) buffered in
  let tile := (bufX, bufY, z) in
  (tile ∈ buffered
   /\ getParent tile ∈ buffered
   /\ getParent (getParent tile) ∈ buffered)
  /\ (join tile ∈ loadList
      /\ join (getParent tile) ∈ loadList
      /\ join (getParent (getParent tile)) ∈ loadList).
Proof.
  intros Hx Hy buffered loadList tile.
  assert (Hin : forall t : Tile,
            t ∈ [tile; getParent tile; getParent (getParent tile)] ->
            t ∈ buffered).
  { intros t Ht. apply bufferTiles_elem_of. by exists bufX, bufY. }
  assert (Hkey : forall t : Tile, t ∈ buffered -> join t ∈ loadList).
  { intros t Ht. unfold loadList, candidates. apply elem_of_app. right.
    by apply list_elem_of_fmap_2. }
  assert (H0 : tile ∈ buffered)
    by (apply Hin; rewrite !elem_of_cons; tauto).
  assert (H1 : getParent tile ∈ buffered)
    by (apply Hin; rewrite !elem_of_cons; tauto).
  assert (H2 : getParent (getParent tile) ∈ buffered)
    by (apply Hin; rewrite !elem_of_cons; tauto).
  repeat split; try done; by apply Hkey.
Qed.

Lemma Math_trunc_nonneg (q : Q) : (0 <= q)%Q -> Math_trunc q = Qfloor q.
Proof.
  destruct q as [n d]. unfold Qle, Math_trunc, Qfloor. cbn. intros Hn.
  apply Z.quot_div_nonneg; lia.
Qed.

Lemma viewTiles_zoom (minTile maxTile : Tile) (z : Z) (t : Tile) :
  t ∈ viewTiles minTile maxTile z -> t.2 = z.
Proof.
  destruct minTile as [[minTile0 minTile1] ?], maxTile as [[maxTile0 maxTile1] ?].
  unfold viewTiles.
  intros (x & (y & Ht & _)%list_elem_of_bind & _)%list_elem_of_bind.
  by apply list_elem_of_singleton in Ht as ->.
Qed.

(** C9, amended. Every tile in view after [updateTiles] is at the tile zoom
    min(trunc(camera.zoom), MAX_TILE_ZOOM), with truncation toward zero; for
    a camera zoom that is not negative this is
    min(floor(camera.zoom), MAX_TILE_ZOOM). *)
Theorem tileZoom_floor_nonneg (m : WebGLMap) (minTile maxTile : Tile) :
  (forall t : Tile,
     t ∈ tilesInView (updateTiles m minTile maxTile) ->
     t.2 = Z.min (Math_trunc (camera_zoom m)) MAX_TILE_ZOOM)
  /\ ((0 <= camera_zoom m)%Q ->
      Z.min (Math_trunc (camera_zoom m)) MAX_TILE_ZOOM
      = Z.min (Qfloor (camera_zoom m)) MAX_TILE_ZOOM).
Proof.
  split.
  - intros t Ht. by apply viewTiles_zoom in Ht.
  - intros Hzoom. by rewrite Math_trunc_nonneg.
Qed.

(** C10. When [fetchTile] is rejected, the worker replies with the tile and
    no tile data; [handleTileWorker] then leaves the tile with an undefined,
    falsy entry, and the next pass whose load list has the tile posts a
    request for it and holds it again. *)
Theorem failed_tile_is_requested_again (m : WebGLMap) (rest : list request)
    (event : request) (response : option VectorTile) (minTile maxTile : Tile) :
  fetchTile earcut response (req_layers event) = None ->
  let workerEvent := tile_worker earcut event response in
  let m' := handleTileWorker (take_request m rest) workerEvent in
  workerEvent = {| rep_tile := req_tile event; rep_tileData := Undefined |}
  /\ tiles m' !! req_tile event = Some Undefined
  /\ truthy (tiles_get (tiles m') (req_tile event)) = false
  /\ (req_tile event ∈ pass_tilesToLoad m' minTile maxTile ->
      request_for (options m') (req_tile event) ∈ posted_by m' minTile maxTile
      /\ tiles_get (tiles (updateTiles m' minTile maxTile)) (req_tile event)
         = Arr []).
Proof.
  intros Hfail workerEvent m'.
  assert (Hreply : workerEvent
            = {| rep_tile := req_tile event; rep_tileData := Undefined |})
    by (unfold workerEvent, tile_worker; by rewrite Hfail).
  assert (Hentry : tiles m' !! req_tile event = Some Undefined)
    by (unfold m', handleTileWorker; rewrite Hreply; cbn;
        by rewrite lookup_insert_eq).
  assert (Hfalsy : truthy (tiles_get (tiles m') (req_tile event)) = false)
    by (unfold tiles_get; by rewrite Hentry).
  assert (Hunheld : unheld (tiles m') (req_tile event) = true)
    by (unfold unheld; by rewrite Hfalsy).
  split; [done|]. split; [done|]. split; [done|]. intros Hin. split.
  - by apply posted_by_elem_of.
  - by rewrite updateTiles_tiles, decide_True.
Qed.

(** A reply with tile data, be it the empty array, keeps the tile out of
    every later pass. *)
Lemma answered_tile_is_not_requested_again (m : WebGLMap)
    (rest : list request) (event : request) (response : option VectorTile)
    (data : list FeatureSet) (minTile maxTile : Tile) :
  fetchTile earcut response (req_layers event) = Some data ->
  let m' := handleTileWorker (take_request m rest)
              (tile_worker earcut event response) in
  tiles_get (tiles m') (req_tile event) = Arr data
  /\ forall r : request,
       r ∈ posted_by m' minTile maxTile -> req_tile r <> req_tile event.
Proof.
  intros Hdata m'.
  assert (Hentry : tiles_get (tiles m') (req_tile event) = Arr data)
    by (unfold m', tile_worker; rewrite Hdata; apply tiles_get_insert_eq).
  split; [done|].
  intros r (_ & _ & Hun)%posted_by_elem_of Heq.
  unfold unheld in Hun. by rewrite Heq, Hentry in Hun.
Qed.

Lemma fold_children (tiles : gmap string tileData) (children : list string)
    (acc : list FeatureSet) :
  fold_left
    (fun childFeatureSets child =>
       let featureSet := tiles_get tiles child in
       if length_gt_0 featureSet
       then childFeatureSets ++ elements featureSet
       else childFeatureSets)
    children acc
  = acc ++ (children ≫= fun child => elements (tiles_get tiles child)).
Proof.
  revert acc. induction children as [|child children IH]; intros acc.
  - cbn. by rewrite app_nil_r.
  - cbn [fold_left]. rewrite IH, bind_cons.
    destruct (tiles_get tiles child) as [[|fs fss]|]; cbn [length_gt_0 elements].
    + done.
    + by rewrite <- app_assoc.
    + done.
Qed.

(** C2, amended. For a tile whose entry is the empty array, [draw] renders
    the feature sets of the direct parent when that entry is not empty;
    otherwise the feature sets of the direct children, in the order of
    [getChildren], the empty and the missing ones adding nothing; and so
    nothing at all when no child has any. *)
Theorem placeholder_is_parent_or_children (tiles : gmap string tileData)
    (tile : Tile) :
  tiles_get tiles (join tile) = Arr [] ->
  let parent := tiles_get tiles (join (getParent tile)) in
  let ofChildren :=
    getChildren tile ≫= fun child => elements (tiles_get tiles (join child)) in
  draw_featureSets tiles tile = getPlaceholderTile tiles tile
  /\ (length_gt_0 parent = true ->
      getPlaceholderTile tiles tile = elements parent)
  /\ (length_gt_0 parent = false ->
      getPlaceholderTile tiles tile = ofChildren
      /\ ((forall child : Tile, child ∈ getChildren tile ->
             length_gt_0 (tiles_get tiles (join child)) = false) ->
          getPlaceholderTile tiles tile = [])).
Proof.
  intros Hempty parent ofChildren.
  split; [unfold draw_featureSets; by rewrite Hempty|].
  unfold getPlaceholderTile. fold parent. split.
  - by intros ->.
  - intros ->. rewrite fold_children, list_fmap_bind. cbn [app].
    split; [done|]. intros Hnone. clear ofChildren.
    induction (getChildren tile) as [|child children IH]; [done|].
    rewrite bind_cons, IH
      by (intros c Hc; apply Hnone; by apply list_elem_of_further).
    specialize (Hnone child (list_elem_of_here _ _)). cbn [compose].
    destruct (tiles_get tiles (join child)) as [[|fs fss]|]; done.
Qed.
End EngineFacts.

(** ** More on the projection *)

Section ProjectionFacts.
Import MercatorCoordinate.
Local Open Scope R_scope.


Lemma mercatorYfromLat_latFromMercatorY (y : R) :
  mercatorYfromLat (latFromMercatorY y) = y.
Proof.
  pose proof PI_RGT_0 as Hpi.
  unfold mercatorYfromLat, latFromMercatorY.
  set (t := (180 - y * 360) * PI / 180).
  replace (PI / 4 + (360 / PI * atan (exp t) - 90) * PI / 360)
    with (atan (exp t)) by (field; lra).
  rewrite tan_atan, ln_exp. unfold t. field. lra.
Qed.

Lemma mercatorXfromLng_lngFromMercatorX (x : R) :
  mercatorXfromLng (lngFromMercatorX x) = x.
Proof. unfold lngFromMercatorX, mercatorXfromLng. field. Qed.

(** X1. Projecting the longitude and latitude of any point of the plane
    gives the point back: [fromLngLat] after [fromXY] is the identity, with
    no condition on the point. *)
Theorem fromLngLat_fromXY (x y : R) : fromLngLat (fromXY (x, y)) = (x, y).
Proof.
  unfold fromLngLat, fromXY. cbn [fst snd].
  rewrite mercatorXfromLng_lngFromMercatorX, mercatorYfromLat_latFromMercatorY.
  f_equal; field.
Qed.


Lemma mercatorYfromLat_decreasing (lat1 lat2 : R) :
  -90 < lat1 -> lat1 < lat2 -> lat2 < 90 ->
  mercatorYfromLat lat2 < mercatorYfromLat lat1.
Proof.
  intros H1 H12 H2. pose proof PI_RGT_0 as Hpi.
  destruct (mercator_angle_range lat1 ltac:(lra)) as [Ha1 Hb1].
  destruct (mercator_angle_range lat2 ltac:(lra)) as [Ha2 Hb2].
  unfold mercatorYfromLat.
  assert (Hangle : PI / 4 + lat1 * PI / 360 < PI / 4 + lat2 * PI / 360) by nra.
  assert (Htan : tan (PI / 4 + lat1 * PI / 360) < tan (PI / 4 + lat2 * PI / 360))
    by (apply tan_increasing; lra).
  assert (Hln : ln (tan (PI / 4 + lat1 * PI / 360))
                < ln (tan (PI / 4 + lat2 * PI / 360)))
    by (apply ln_increasing; [apply tan_gt_0; lra|done]).
  assert (Hk : 0 < 180 / PI) by (apply Rdiv_lt_0_compat; lra).
  nra.
Qed.

(** X3. The projection keeps the orientation of the map: a point further
    east has a larger x, and of two latitudes between -90 and 90 the one
    further north has the larger y; longitude 0 and latitude 0 are the
    origin. *)
Theorem fromLngLat_monotone (lng1 lng2 lat1 lat2 : R) :
  lng1 < lng2 -> -90 < lat1 -> lat1 < lat2 -> lat2 < 90 ->
  fst (fromLngLat (lng1, lat1)) < fst (fromLngLat (lng2, lat2))
  /\ snd (fromLngLat (lng1, lat1)) < snd (fromLngLat (lng2, lat2))
  /\ fromLngLat (0, 0) = (0, 0).
Proof.
  intros Hlng H1 H12 H2. unfold fromLngLat. cbn [fst snd].
  pose proof (mercatorYfromLat_decreasing lat1 lat2 H1 H12 H2) as Hy.
  split; [unfold mercatorXfromLng; lra|]. split; [lra|].
  unfold mercatorXfromLng, mercatorYfromLat.
  replace (PI / 4 + 0 * PI / 360) with (PI / 4) by field.
  rewrite tan_PI4, ln_1. f_equal; field. apply PI_neq0.
Qed.

Lemma latFromMercatorY_decreasing (y1 y2 : R) :
  y1 < y2 -> latFromMercatorY y2 < latFromMercatorY y1.
Proof.
  intros Hy. pose proof PI_RGT_0 as Hpi. unfold latFromMercatorY.
  assert (Hexp : exp ((180 - y2 * 360) * PI / 180)
                 < exp ((180 - y1 * 360) * PI / 180))
    by (apply exp_increasing; nra).
  apply atan_increasing in Hexp.
  assert (Hk : 0 < 360 / PI) by (apply Rdiv_lt_0_compat; lra).
  nra.
Qed.

Lemma zoomScale_pos (zoom : R) : 0 < Rpower 2 zoom.
Proof. apply exp_pos. Qed.

(** X4. For a canvas of positive width and height, the box of [getBounds]
    has its west side west of its east side and its south side south of its
    north side; it is centred on the longitude of the camera, holds the
    latitude of the camera, and spans 360 * width / (TILE_SIZE * 2^zoom)
    degrees of longitude. *)
Theorem getBounds_around_camera (camera_x camera_y camera_zoom width height : R) :
  0 < width -> 0 < height ->
  let b := getBounds camera_x camera_y camera_zoom width height in
  let centre := fromXY (camera_x, camera_y) in
  bbox0 b < bbox2 b
  /\ bbox1 b < bbox3 b
  /\ (bbox0 b + bbox2 b) / 2 = fst centre
  /\ bbox1 b < snd centre < bbox3 b
  /\ bbox2 b - bbox0 b = 360 * width / (IZR TILE_SIZE * Rpower 2 camera_zoom).
Proof.
  intros Hw Hh b centre.
  pose proof (zoomScale_pos camera_zoom) as Hs.
  unfold b, centre, getBounds, fromXY, pixelRatio, TILE_SIZE. cbn [bbox0 bbox1 bbox2 bbox3 fst snd].
  set (s := Rpower 2 camera_zoom) in *.
  assert (Hy1 : (1 - camera_y) / 2
                < ((1 - camera_y) / 2 * 512 * s + height / 2) / s / 512).
  { replace (((1 - camera_y) / 2 * 512 * s + height / 2) / s / 512)
      with ((1 - camera_y) / 2 + height / (2 * s * 512)) by (field; lra).
    assert (0 < height / (2 * s * 512)) by (apply Rdiv_lt_0_compat; nra). lra. }
  assert (Hy2 : ((1 - camera_y) / 2 * 512 * s - height / 2) / s / 512
                < (1 - camera_y) / 2).
  { replace (((1 - camera_y) / 2 * 512 * s - height / 2) / s / 512)
      with ((1 - camera_y) / 2 - height / (2 * s * 512)) by (field; lra).
    assert (0 < height / (2 * s * 512)) by (apply Rdiv_lt_0_compat; nra). lra. }
  apply latFromMercatorY_decreasing in Hy1, Hy2.
  assert (Hwidth : 0 < 360 * width / (512 * s)) by (apply Rdiv_lt_0_compat; nra).
  assert (Hspan : lngFromMercatorX (((1 + camera_x) / 2 * 512 * s + width / 2) / s / 512)
                  - lngFromMercatorX (((1 + camera_x) / 2 * 512 * s - width / 2) / s / 512)
                  = 360 * width / (512 * s))
    by (unfold lngFromMercatorX; field; lra).
  repeat split; try lra.
  unfold lngFromMercatorX. field. lra.
Qed.

(** X5. When the world at the camera zoom, TILE_SIZE * 2^zoom pixels wide,
    is not wider than the canvas, the map is at its limits wherever the
    camera is. *)
Theorem atLimits_when_world_fits (camera_x camera_y camera_zoom width height : R) :
  IZR TILE_SIZE * Rpower 2 camera_zoom <= width ->
  atLimits camera_x camera_y camera_zoom width height.
Proof.
  intros Hfit. pose proof (zoomScale_pos camera_zoom) as Hs.
  unfold atLimits, getBounds, pixelRatio, TILE_SIZE in *.
  cbn [bbox0 bbox1 bbox2 bbox3].
  set (s := Rpower 2 camera_zoom) in *.
  assert (Hspan : lngFromMercatorX (((1 + camera_x) / 2 * 512 * s + width / 2) / s / 512)
                  - lngFromMercatorX (((1 + camera_x) / 2 * 512 * s - width / 2) / s / 512)
                  = 360 * (width / (512 * s)))
    by (unfold lngFromMercatorX; field; lra).
  assert (Hratio : 1 <= width / (512 * s)).
  { apply (Rmult_le_reg_r (512 * s)); [nra|].
    replace (width / (512 * s) * (512 * s)) with width by (field; lra). lra. }
  destruct (Rle_or_lt
              (lngFromMercatorX (((1 + camera_x) / 2 * 512 * s - width / 2) / s / 512))
              (-180)) as [Hwest|Hwest]; [by left|].
  right. right. left. lra.
Qed.
End ProjectionFacts.

(** ** The tile URL *)

Section TileURL.
Lemma replace_bracefree (pattern replacement a s : string) :
  bracefree a ->
  replace (String "{" pattern) replacement (a +:+ s)
  = a +:+ replace (String "{" pattern) replacement s.
Proof.
  induction a as [|c' a IH]; [done|]. intros [Hc Ha].
  change (String c' a +:+ s) with (String c' (a +:+ s)).
  cbn [replace String.prefix].
  destruct (ascii_dec "{" c') as [Heq|_]; [by subst|].
  by rewrite IH.
Qed.

Lemma replace_bracefree_all (pattern replacement a : string) :
  bracefree a -> replace (String "{" pattern) replacement a = a.
Proof.
  induction a as [|c' a IH]; [done|]. intros [Hc Ha].
  cbn [replace String.prefix].
  destruct (ascii_dec "{" c') as [Heq|_]; [by subst|].
  by rewrite IH.
Qed.

Lemma prefix_app (pattern s : string) :
  String.prefix pattern (pattern +:+ s) = true.
Proof.
  induction pattern as [|c pattern IH]; [by destruct s|].
  change (String c pattern +:+ s) with (String c (pattern +:+ s)).
  cbn [String.prefix]. by destruct (ascii_dec c c).
Qed.

Lemma string_drop_app (pattern s : string) :
  string_drop (String.length pattern) (pattern +:+ s) = s.
Proof. induction pattern as [|c pattern IH]; [done|]. exact IH. Qed.

Lemma replace_unfold (pattern replacement s : string) :
  replace pattern replacement s
  = if String.prefix pattern s
    then replacement +:+ string_drop (String.length pattern) s
    else match s with
         | EmptyString => EmptyString
         | String c s' => String c (replace pattern replacement s')
         end.
Proof. by destruct s. Qed.

(** the first occurrence is replaced, and what follows it is kept *)
Lemma replace_hit (pattern replacement s : string) :
  replace pattern replacement (pattern +:+ s) = replacement +:+ s.
Proof. by rewrite replace_unfold, prefix_app, string_drop_app. Qed.

Lemma string_of_uint_bracefree (d : Decimal.uint) :
  bracefree (NilEmpty.string_of_uint d).
Proof. induction d; cbn; try done; split; done. Qed.

Lemma toString_bracefree (n : Z) : bracefree (toString n).
Proof.
  unfold toString, NilZero.string_of_int, NilZero.string_of_uint.
  destruct (Z.to_int n) as [d|d]; destruct d; cbn;
    repeat split; try done; apply string_of_uint_bracefree.
Qed.

(** X6. For a template in the order of the README, with text free of
    opening braces around the placeholders, the URL of a tile is the
    template with the coordinates of the tile in the place of [{z}], [{x}]
    and [{y}]; a template without an opening brace is the URL of every
    tile. *)
Theorem formatTileURL_template (x y z : Z) (a b c d : string) :
  bracefree a -> bracefree b -> bracefree c -> bracefree d ->
  formatTileURL (join (x, y, z))
    (a +:+ "{z}" +:+ b +:+ "{x}" +:+ c +:+ "{y}" +:+ d)
  = a +:+ toString z +:+ b +:+ toString x +:+ c +:+ toString y +:+ d
  /\ formatTileURL (join (x, y, z)) a = a.
Proof.
  intros Ha Hb Hc Hd. unfold formatTileURL. rewrite split_join. cbn [nth].
  pose proof (toString_bracefree x) as Hx.
  pose proof (toString_bracefree y) as Hy.
  pose proof (toString_bracefree z) as Hz.
  split;
    [|by rewrite (replace_bracefree_all "x}" _ a), (replace_bracefree_all "y}" _ a),
         (replace_bracefree_all "z}" _ a)].
  assert (Hskip : forall (p : ascii) (r s : string),
            p <> "z"%char ->
            replace (String "{" (String p "}")) r ("{z}" +:+ s)
            = "{z}" +:+ replace (String "{" (String p "}")) r s).
  { intros p r s Hp.
    change ("{z}" +:+ s) with (String "{" (String "z" (String "}" s))).
    rewrite (replace_unfold _ _ (String "{" _)). cbn [String.prefix].
    destruct (ascii_dec "{" "{") as [_|Hne]; [|done].
    destruct (ascii_dec p "z") as [Heq|_]; [done|].
    rewrite (replace_unfold _ _ (String "z" _)). cbn [String.prefix].
    destruct (ascii_dec "{" "z") as [Heq|_]; [done|].
    rewrite (replace_unfold _ _ (String "}" _)). cbn [String.prefix].
    by destruct (ascii_dec "{" "}") as [Heq|_]. }
  (* {x} *)
  rewrite (replace_bracefree "x}" (toString x) a) by done.
  rewrite (Hskip "x"%char) by done.
  rewrite (replace_bracefree "x}" (toString x) b) by done.
  rewrite (replace_hit "{x}").
  (* {y} *)
  rewrite (replace_bracefree "y}" (toString y) a) by done.
  rewrite (Hskip "y"%char) by done.
  rewrite (replace_bracefree "y}" (toString y) b) by done.
  rewrite (replace_bracefree "y}" (toString y) (toString x)) by done.
  rewrite (replace_bracefree "y}" (toString y) c) by done.
  rewrite (replace_hit "{y}").
  (* {z} *)
  rewrite (replace_bracefree "z}" (toString z) a) by done.
  by rewrite (replace_hit "{z}").
Qed.
End TileURL.

(** ** More on the triangulator *)

Section GeometryFacts.
Import MercatorCoordinate.
Variable earcut : list R -> list nat -> list nat.

Lemma verticesFromLine_cases (coordinates : list position) :
  verticesFromLine coordinates
  = if decide (2 <= length coordinates)%nat
    then Some (spec_segments (fromLngLat <$> coordinates))
    else None.
Proof.
  destruct coordinates as [|c0 [|c1 rest]]; [done..|].
  rewrite decide_True by (cbn; lia).
  unfold verticesFromLine. f_equal.
  rewrite (fold_line_push rest (spread (fromLngLat c0)) (fromLngLat c1)).
  cbn [fmap list_fmap spec_segments]. by rewrite <- !app_assoc.
Qed.

Lemma geometryToVertices_MultiLineString (coordinates : list (list position)) :
  geometryToVertices earcut (MultiLineString coordinates)
  = @concat number <$> mapM verticesFromLine coordinates.
Proof.
  cbn [geometryToVertices]. rewrite forEach_append_mapM.
  by destruct (mapM verticesFromLine coordinates).
Qed.

(** X7. A MultiLineString whose lines all have two points or more becomes
    the segments of its lines, one line after the other, four numbers for
    every pair of consecutive points; one line with fewer than two points
    makes the conversion throw. *)
Theorem MultiLineString_segments (coordinates : list (list position)) :
  geometryToVertices earcut (MultiLineString coordinates)
  = if decide (Forall (fun l : list position => (2 <= length l)%nat) coordinates)
    then Some (coordinates ≫= fun l => spec_segments (fromLngLat <$> l))
    else None.
Proof.
  rewrite geometryToVertices_MultiLineString.
  induction coordinates as [|l coordinates IH]; [done|].
  cbn [mapM]. rewrite verticesFromLine_cases.
  destruct (decide (2 <= length l)%nat) as [Hl|Hl]; cbn.
  - destruct (mapM verticesFromLine coordinates) as [vss|]; cbn in IH |- *;
      destruct (decide (Forall _ coordinates)) as [Hall|Hall]; try done.
    + rewrite decide_True by (by constructor). by injection IH as ->.
    + rewrite decide_False; [done|]. intros Hcons. apply Hall.
      by apply Forall_cons in Hcons as [_ ?].
  - rewrite decide_False; [done|]. intros Hcons.
    by apply Forall_cons in Hcons as [? _].
Qed.







End GeometryFacts.

(** ** More on the tile decoder *)

Section DecoderComposition.
Variable earcut : list R -> list nat -> list nat.

Lemma bucket_cons (type : primitive) (geojson : Geometry)
    (features : list Geometry) :
  bucket earcut type (geojson :: features)
  = if decide (getLayerPrimitive geojson = type)
    then vs ← geometryToVertices earcut geojson;
         rest ← bucket earcut type features;
         Some (vs ++ rest)
    else bucket earcut type features.
Proof.
  unfold bucket, of_primitive. case_decide as Htype.
  - rewrite filter_cons_True by done. cbn [mapM].
    destruct (geometryToVertices earcut geojson) as [vs|]; [|done]. cbn.
    by destruct (mapM _ _).
  - by rewrite filter_cons_False.
Qed.

Lemma convert_features_buckets (features : list Geometry) (b : buckets) :
  convert_features earcut features b
  = ps ← bucket earcut polygon features;
    qs ← bucket earcut point features;
    ls ← bucket earcut line features;
    Some {| polygons := polygons b ++ ps;
            points := points b ++ qs;
            lines := lines b ++ ls |}.
Proof.
  revert b. induction features as [|geojson features IH]; intros b.
  - cbn. destruct b. by rewrite !app_nil_r.
  - cbn [convert_features]. rewrite !bucket_cons.
    destruct (getLayerPrimitive geojson) eqn:Htype;
      repeat (first [rewrite decide_True by done | rewrite decide_False by done]);
      try (destruct (geometryToVertices earcut geojson) as [vs|]; cbn;
           [|by repeat (destruct (bucket earcut _ features); cbn)]);
      rewrite IH;
      destruct (bucket earcut polygon features) as [ps|]; cbn; try done;
      destruct (bucket earcut point features) as [qs|]; cbn; try done;
      destruct (bucket earcut line features) as [ls|]; cbn; try done;
      by rewrite <- ?app_assoc.
Qed.

Lemma convert_layers_mapM (vectorTile : VectorTile) (layers : list string)
    (tileData : list FeatureSet) :
  convert_layers earcut vectorTile layers tileData
  = (fun sets => tileData ++ concat sets)
      <$> mapM (layer_featureSets earcut vectorTile) layers.
Proof.
  revert tileData. induction layers as [|layer layers IH]; intros tileData.
  - cbn. by rewrite app_nil_r.
  - cbn [convert_layers mapM].
    assert (Hlayer : layer_featureSets earcut vectorTile layer
              = match vectorTile !! layer with
                | None => Some []
                | Some features =>
                    ps ← bucket earcut polygon features;
                    qs ← bucket earcut point features;
                    ls ← bucket earcut line features;
                    Some [ {| fs_layer := layer; fs_type := polygon; fs_vertices := ps |};
                           {| fs_layer := layer; fs_type := point; fs_vertices := qs |};
                           {| fs_layer := layer; fs_type := line; fs_vertices := ls |} ]
                end) by done.
    rewrite Hlayer. clear Hlayer.
    destruct (vectorTile !! layer) as [features|].
    + rewrite convert_features_buckets. cbn [polygons points lines app].
      destruct (bucket earcut polygon features) as [ps|]; [|done].
      destruct (bucket earcut point features) as [qs|]; [|done].
      destruct (bucket earcut line features) as [ls|]; [|done].
      cbn [mbind option_bind]. rewrite IH.
      destruct (mapM _ layers) as [sets|]; [|done].
      cbn. by rewrite <- !app_assoc.
    + cbn [mbind option_bind]. rewrite IH. by destruct (mapM _ layers).
Qed.

Lemma fetchTile_mapM (vectorTile : VectorTile) (layers : list string) :
  fetchTile earcut (Some vectorTile) layers
  = @concat FeatureSet <$> mapM (layer_featureSets earcut vectorTile) layers.
Proof.
  cbn. rewrite convert_layers_mapM. by destruct (mapM _ layers).
Qed.

(** X9. Fetching the layers of two lists gives the feature sets of the first
    list followed by those of the second, and throws when either part
    does: the result for a layer does not depend on the layers requested
    with it. *)
Theorem fetchTile_app (vectorTile : VectorTile) (layers1 layers2 : list string) :
  fetchTile earcut (Some vectorTile) (layers1 ++ layers2)
  = tileData1 ← fetchTile earcut (Some vectorTile) layers1;
    tileData2 ← fetchTile earcut (Some vectorTile) layers2;
    Some (tileData1 ++ tileData2).
Proof.
  rewrite !fetchTile_mapM.
  induction layers1 as [|layer layers1 IH].
  - cbn. by destruct (mapM _ layers2).
  - cbn [app mapM].
    destruct (layer_featureSets earcut vectorTile layer) as [sets|]; [|done].
    cbn in IH |- *.
    destruct (mapM _ (layers1 ++ layers2)) as [rest|];
      destruct (mapM _ layers1) as [rest1|];
      destruct (mapM _ layers2) as [rest2|]; cbn in IH |- *; try done.
    injection IH as ->. by rewrite app_assoc.
Qed.

(** X10. [fetchTile] reads the requested layers only: two tiles with the
    same features in the requested layers give the same result, whatever
    the other layers hold. *)
Theorem fetchTile_requested_layers_only (vectorTile vectorTile' : VectorTile)
    (layers : list string) :
  (forall layer, layer ∈ layers -> vectorTile !! layer = vectorTile' !! layer) ->
  fetchTile earcut (Some vectorTile) layers
  = fetchTile earcut (Some vectorTile') layers.
Proof.
  intros Hsame. rewrite !fetchTile_mapM. f_equal.
  apply Forall_mapM_ext, Forall_forall. intros layer Hlayer.
  unfold layer_featureSets. by rewrite Hsame.
Qed.

Lemma of_primitive_supported (type : primitive) (features : list Geometry) :
  type <> unknown ->
  of_primitive type (filter supported features) = of_primitive type features.
Proof.
  intros Htype. unfold of_primitive. 
  induction features as [|geojson features IH]; [done|].
  destruct (decide (supported geojson)) as [Hs|Hs].
  - rewrite (filter_cons_True supported) by done.
    destruct (decide (getLayerPrimitive geojson = type)) as [Hg|Hg].
    + rewrite !filter_cons_True by done. by rewrite IH.
    + rewrite !filter_cons_False by done. exact IH.
  - rewrite (filter_cons_False supported) by done.
    rewrite filter_cons_False; [done|].
    intros Hg. apply Hs. unfold supported. by rewrite Hg.
Qed.

(** X11. Features of an unsupported kind, those of type MultiPoint among
    them, do not count: dropping them from every layer of the tile changes
    nothing in what [fetchTile] returns or in whether it throws. *)
Theorem fetchTile_skips_unsupported (vectorTile : VectorTile)
    (layers : list string) :
  fetchTile earcut (Some (filter supported <$> vectorTile)) layers
  = fetchTile earcut (Some vectorTile) layers.
Proof.
  rewrite !fetchTile_mapM. f_equal. apply mapM_ext. intros layer.
  unfold layer_featureSets, VectorTile in *. rewrite lookup_fmap.
  destruct (vectorTile !! layer) as [features|]; [|done]. cbn.
  unfold bucket. by rewrite !of_primitive_supported.
Qed.

Lemma bucket_None (type : primitive) (features : list Geometry)
    (geojson : Geometry) :
  geojson ∈ features -> getLayerPrimitive geojson = type ->
  geometryToVertices earcut geojson = None ->
  bucket earcut type features = None.
Proof.
  intros Hin Htype Hthrow. unfold bucket.
  rewrite (mapM_None_2 (geometryToVertices earcut)); [done|].
  apply Exists_exists. exists geojson. split; [|done].
  unfold of_primitive. by apply list_elem_of_filter.
Qed.

(** X12. One feature of a supported kind that does not convert, in a
    requested layer, fails the whole tile: [fetchTile] throws, and the
    worker replies with the tile and no tile data. *)
Theorem bad_feature_fails_tile (vectorTile : VectorTile) (event : request)
    (layer : string) (features : list Geometry) (geojson : Geometry) :
  layer ∈ req_layers event ->
  vectorTile !! layer = Some features ->
  geojson ∈ features ->
  supported geojson ->
  geometryToVertices earcut geojson = None ->
  fetchTile earcut (Some vectorTile) (req_layers event) = None
  /\ tile_worker earcut event (Some vectorTile)
     = {| rep_tile := req_tile event; rep_tileData := Undefined |}.
Proof.
  intros Hlayer Hfeatures Hin Hsupported Hthrow.
  assert (Hfetch : fetchTile earcut (Some vectorTile) (req_layers event) = None).
  { rewrite fetchTile_mapM.
    rewrite (mapM_None_2 (layer_featureSets earcut vectorTile)); [done|].
    apply Exists_exists. exists layer. split; [done|].
    unfold layer_featureSets. rewrite Hfeatures.
    destruct (getLayerPrimitive geojson) eqn:Htype.
    - by rewrite (bucket_None polygon features geojson).
    - rewrite (bucket_None point features geojson) by done.
      by destruct (bucket earcut polygon features).
    - rewrite (bucket_None line features geojson) by done.
      destruct (bucket earcut polygon features); [|done].
      by destruct (bucket earcut point features).
    - done. }
  split; [done|]. unfold tile_worker. by rewrite Hfetch.
Qed.



End DecoderComposition.


(** ** More on the fetch coordinator *)

Section CoordinatorFacts.
Context `{Tilebelt}.
Variable earcut : list R -> list nat -> list nat.

(** X15. Reading a key the way the range filter and [fetchTile] do, by
    [split('/')] and [Number], gives back the coordinates of the tile that
    was joined, so two tiles with the same key are the same tile. *)
Theorem key_round_trip (x y z : Z) :
  Number <$> split "/" (join (x, y, z)) = [Some x; Some y; Some z]
  /\ forall t' : Tile, join (x, y, z) = join t' -> t' = (x, y, z).
Proof.
  split.
  - rewrite split_join. cbn [fmap list_fmap]. by rewrite !Number_toString.
  - intros t' Hjoin. symmetry. by apply join_inj.
Qed.

Lemma viewTiles_elem_of (minTile maxTile : Tile) (z : Z) (t : Tile) :
  t ∈ viewTiles minTile maxTile z
  <-> exists x y : Z,
        t = (x, y, z)
        /\ (Z.max minTile.1.1 0 <= x <= maxTile.1.1)%Z
        /\ (Z.max minTile.1.2 0 <= y <= maxTile.1.2)%Z.
Proof.
  destruct minTile as [[minTile0 minTile1] ?], maxTile as [[maxTile0 maxTile1] ?].
  unfold viewTiles. cbn [fst snd]. rewrite list_elem_of_bind. split.
  - intros (x & (y & Ht%list_elem_of_singleton & Hy%loop_range_elem_of)%list_elem_of_bind
              & Hx%loop_range_elem_of).
    by exists x, y.
  - intros (x & y & -> & Hx & Hy). exists x.
    split; [|by apply loop_range_elem_of].
    apply list_elem_of_bind. exists y. split; [by apply list_elem_of_singleton|].
    by apply loop_range_elem_of.
Qed.

Lemma loop_range_NoDup (lo hi : Z) : NoDup (loop_range lo hi).
Proof.
  unfold loop_range.
  assert (Hinj : Inj eq eq (fun i : nat => (lo + Z.of_nat i)%Z)).
  { intros i j Hij. lia. }
  apply (NoDup_fmap_2 _). apply NoDup_seq.
Qed.

Lemma loop_range_length (lo hi : Z) :
  length (loop_range lo hi) = Z.to_nat (hi + 1 - lo).
Proof. unfold loop_range. by rewrite length_fmap, length_seq. Qed.

Lemma bind_const_length {A B} (f : A -> list B) (n : nat) (l : list A) :
  (forall x, length (f x) = n) -> length (l ≫= f) = (length l * n)%nat.
Proof.
  intros Hf. induction l as [|x l IH]; [done|].
  rewrite bind_cons, length_app, IH, Hf. cbn. lia.
Qed.

(** X16. The tiles in view are the tiles of the rectangle from
    (max(minTile[0], 0), max(minTile[1], 0)) to (maxTile[0], maxTile[1]) at
    the tile zoom, each of them once: no tile in view has a negative
    coordinate, and there is none when the maximum is below the minimum. *)
Theorem viewTiles_rectangle (minTile maxTile : Tile) (z : Z) :
  (forall t : Tile,
     t ∈ viewTiles minTile maxTile z
     <-> exists x y : Z,
           t = (x, y, z)
           /\ (Z.max minTile.1.1 0 <= x <= maxTile.1.1)%Z
           /\ (Z.max minTile.1.2 0 <= y <= maxTile.1.2)%Z)
  /\ NoDup (viewTiles minTile maxTile z)
  /\ length (viewTiles minTile maxTile z)
     = (Z.to_nat (maxTile.1.1 + 1 - Z.max minTile.1.1 0)
        * Z.to_nat (maxTile.1.2 + 1 - Z.max minTile.1.2 0))%nat.
Proof.
  split; [apply viewTiles_elem_of|].
  destruct minTile as [[minTile0 minTile1] ?], maxTile as [[maxTile0 maxTile1] ?].
  unfold viewTiles. cbn [fst snd]. split.
  - apply NoDup_bind; [| |apply loop_range_NoDup].
    + intros x1 x2 t _ _
        (y1 & Ht1%list_elem_of_singleton & _)%list_elem_of_bind
        (y2 & Ht2%list_elem_of_singleton & _)%list_elem_of_bind.
      congruence.
    + intros x _. apply NoDup_bind; [| |apply loop_range_NoDup].
      * intros y1 y2 t _ _ Ht1%list_elem_of_singleton Ht2%list_elem_of_singleton.
        congruence.
      * intros y _. apply NoDup_singleton.
  - rewrite (bind_const_length _ (Z.to_nat (maxTile1 + 1 - Z.max minTile1 0))).
    + by rewrite loop_range_length.
    + intros x. rewrite (bind_const_length _ 1%nat) by done.
      rewrite loop_range_length. lia.
Qed.

(** X17. With a tile buffer that is not negative, every tile in view is
    among the buffered tiles. *)
Theorem viewTiles_buffered (tileBuffer : Z) (minTile maxTile : Tile) (z : Z)
    (t : Tile) :
  (0 <= tileBuffer)%Z ->
  t ∈ viewTiles minTile maxTile z ->
  t ∈ bufferTiles tileBuffer minTile maxTile z.
Proof.
  intros Hbuffer (x & y & -> & Hx & Hy)%viewTiles_elem_of.
  apply bufferTiles_elem_of. exists x, y.
  split; [lia|]. split; [lia|]. apply list_elem_of_here.
Qed.

Lemma pass_tilesToLoad_in_view (m : WebGLMap) (minTile maxTile t : Tile) :
  t ∈ viewTiles minTile maxTile (tileZoom (camera_zoom m)) ->
  valid_tile t ->
  join t ∈ pass_tilesToLoad m minTile maxTile.
Proof.
  intros Hview Hvalid. apply tilesToLoad_elem_of. split.
  - unfold candidates. apply elem_of_app. left. by apply list_elem_of_fmap_2.
  - by apply inRange_join.
Qed.

Lemma updateTiles_held (m : WebGLMap) (minTile maxTile : Tile) (k : string) :
  k ∈ pass_tilesToLoad m minTile maxTile ->
  truthy (tiles_get (tiles (updateTiles m minTile maxTile)) k) = true.
Proof.
  intros Hk. rewrite updateTiles_tiles. case_decide as Hun; [done|].
  destruct (truthy (tiles_get (tiles m) k)) eqn:Htruthy; [done|].
  exfalso. apply Hun. split; [done|]. unfold unheld. by rewrite Htruthy.
Qed.

(** X18. After a pass of [updateTiles], every tile in view that is a valid
    tile has an array in the cache, its data or the empty placeholder: the
    lookup of [draw] never finds such a tile missing. *)
Theorem in_view_tiles_are_held (m : WebGLMap) (minTile maxTile t : Tile) :
  t ∈ tilesInView (updateTiles m minTile maxTile) ->
  valid_tile t ->
  exists featureSets : list FeatureSet,
    tiles (updateTiles m minTile maxTile) !! join t = Some (Arr featureSets).
Proof.
  intros Hview Hvalid.
  pose proof (updateTiles_held m minTile maxTile (join t)
                (pass_tilesToLoad_in_view m minTile maxTile t Hview Hvalid))
    as Hheld.
  unfold tiles_get in Hheld.
  destruct (tiles (updateTiles m minTile maxTile) !! join t) as [[fss|]|];
    try done. by exists fss.
Qed.

Lemma load_tiles_held (o : mapOptions) (toLoad : list string)
    (tiles : gmap string tileData) (worker : list request) :
  (forall k, k ∈ toLoad -> truthy (tiles_get tiles k) = true) ->
  load_tiles o toLoad (tiles, worker) = (tiles, worker).
Proof.
  induction toLoad as [|k toLoad IH]; [done|]. intros Hheld.
  rewrite load_tiles_cons. unfold load_tile. cbn [fst snd].
  rewrite (Hheld k) by left. apply IH. intros k' Hk'. apply Hheld. by right.
Qed.

(** X19. A second pass of [updateTiles] over the same viewport changes
    nothing: it posts no request and leaves the map as the first pass left
    it. *)
Theorem updateTiles_twice (m : WebGLMap) (minTile maxTile : Tile) :
  updateTiles (updateTiles m minTile maxTile) minTile maxTile
  = updateTiles m minTile maxTile
  /\ posted_by (updateTiles m minTile maxTile) minTile maxTile = [].
Proof.
  set (m' := updateTiles m minTile maxTile).
  assert (Hlist : pass_tilesToLoad m' minTile maxTile
                  = pass_tilesToLoad m minTile maxTile) by done.
  assert (Hload : load_tiles (options m') (pass_tilesToLoad m' minTile maxTile)
                    (tiles m', tileWorker m') = (tiles m', tileWorker m')).
  { apply load_tiles_held. intros k Hk. apply updateTiles_held.
    by rewrite <- Hlist. }
  assert (Hsame : updateTiles m' minTile maxTile = m').
  { change (updateTiles m' minTile maxTile)
      with {| options := options m';
              camera_zoom := camera_zoom m';
              tiles := (load_tiles (options m')
                          (pass_tilesToLoad m' minTile maxTile)
                          (tiles m', tileWorker m')).1;
              tilesInView := tilesInView m';
              bufferedTiles := bufferedTiles m';
              tileWorker := (load_tiles (options m')
                               (pass_tilesToLoad m' minTile maxTile)
                               (tiles m', tileWorker m')).2 |}.
    by rewrite Hload. }
  split; [done|]. unfold posted_by. rewrite Hsame. apply drop_all.
Qed.
End CoordinatorFacts.

(** ** Runs of the map *)

Section RunFacts.
Context `{Tilebelt}.
Variable earcut : list R -> list nat -> list nat.

Lemma load_tiles_lookup (o : mapOptions) (toLoad : list string)
    (tiles : gmap string tileData) (worker : list request) (k : string)
    (v : tileData) :
  (load_tiles o toLoad (tiles, worker)).1 !! k = Some v ->
  tiles !! k = Some v \/ (k ∈ toLoad /\ v = Arr []).
Proof.
  revert tiles worker.
  induction toLoad as [|tile toLoad IH]; intros tiles worker; [by left|].
  rewrite load_tiles_cons. unfold load_tile. cbn [fst snd].
  destruct (truthy (tiles_get tiles tile)).
  - intros [Hk|[Hk Hv]]%IH; [by left|]. right. split; [by right|done].
  - intros [Hk|[Hk Hv]]%IH; [|right; split; [by right|done]].
    destruct (decide (tile = k)) as [->|Hne].
    + rewrite lookup_insert_eq in Hk. injection Hk as <-.
      right. split; [left|done].
    + rewrite lookup_insert_ne in Hk by done. by left.
Qed.

Lemma load_tiles_keeps (o : mapOptions) (toLoad : list string)
    (tiles : gmap string tileData) (worker : list request) (k : string) :
  is_Some (tiles !! k) ->
  is_Some ((load_tiles o toLoad (tiles, worker)).1 !! k).
Proof.
  revert tiles worker.
  induction toLoad as [|tile toLoad IH]; intros tiles worker Hk; [done|].
  rewrite load_tiles_cons. unfold load_tile. cbn [fst snd].
  destruct (truthy (tiles_get tiles tile)); [by apply IH|].
  apply IH. rewrite lookup_insert. by case_decide.
Qed.

Lemma step_keeps_keys (m m' : WebGLMap) (k : string) :
  step earcut m m' -> is_Some (tiles m !! k) -> is_Some (tiles m' !! k).
Proof.
  intros Hstep Hk.
  destruct Hstep as [m o|m a b|m d a b|m before event after resp Hw].
  - done.
  - rewrite (proj1 (updateTiles_loads m a b)). by apply load_tiles_keeps.
  - rewrite (proj1 (updateTiles_loads _ a b)). by apply load_tiles_keeps.
  - cbn. rewrite lookup_insert. by case_decide.
Qed.

(** X20. The cache only grows: along every run of the map, a key that has
    an entry keeps one. No step deletes a tile, whatever the zoom, the
    viewport or the replies. *)
Theorem cache_never_evicts (m m' : WebGLMap) (k : string) :
  rtc (step earcut) m m' ->
  is_Some (tiles m !! k) -> is_Some (tiles m' !! k).
Proof.
  induction 1 as [m|m1 m2 m3 Hstep _ IH]; [done|].
  intros Hk. by eapply IH, step_keeps_keys.
Qed.

Lemma step_keys_valid (m m' : WebGLMap) :
  step earcut m m' ->
  (forall r, r ∈ tileWorker m ->
     exists t : Tile, req_tile r = join t /\ valid_tile t) ->
  (forall k, is_Some (tiles m !! k) ->
     exists t : Tile, k = join t /\ valid_tile t) ->
  forall k, is_Some (tiles m' !! k) ->
    exists t : Tile, k = join t /\ valid_tile t.
Proof.
  intros Hstep Hworker Hkeys.
  assert (Hpass : forall (m0 : WebGLMap) (a b : Tile),
            tiles m0 = tiles m ->
            forall k, is_Some (tiles (updateTiles m0 a b) !! k) ->
              exists t : Tile, k = join t /\ valid_tile t).
  { intros m0 a b Hm0 k [v Hv].
    rewrite (proj1 (updateTiles_loads m0 a b)) in Hv.
    apply load_tiles_lookup in Hv as [Hv|[Hk _]].
    - apply Hkeys. rewrite <- Hm0. by exists v.
    - apply tilesToLoad_elem_of in Hk as [Hcand Hrange].
      assert (Ht : exists t : Tile, k = join t).
      { unfold candidates in Hcand.
        apply elem_of_app in Hcand as [Hc|Hc];
          apply list_elem_of_fmap in Hc as (t & -> & _); by exists t. }
      destruct Ht as [t ->]. exists t. split; [done|]. by apply inRange_join. }
  destruct Hstep as [m o|m a b|m d a b|m before event after resp Hw].
  - done.
  - by apply Hpass.
  - by apply Hpass.
  - intros k. cbn. rewrite tile_worker_tile, lookup_insert.
    case_decide as Hk; [|apply Hkeys]. subst k. intros _.
    apply Hworker. rewrite Hw, elem_of_app, elem_of_cons. tauto.
Qed.

(** X21. In every run of the map, every key of the cache is the key of a
    valid tile: [x] and [y] within 0 .. 2^z - 1 and [z] within
    0 .. MAX_TILE_ZOOM. *)
Theorem cache_keys_valid (o : mapOptions) (m : WebGLMap) (k : string) :
  reachable earcut o m ->
  is_Some (tiles m !! k) ->
  exists t : Tile, k = join t /\ valid_tile t.
Proof.
  intros Hreach. revert k.
  assert (Hsteps : forall m0 m1 : WebGLMap,
            rtc (step earcut) m0 m1 ->
            reachable earcut o m0 ->
            (forall k, is_Some (tiles m0 !! k) ->
               exists t : Tile, k = join t /\ valid_tile t) ->
            forall k, is_Some (tiles m1 !! k) ->
              exists t : Tile, k = join t /\ valid_tile t).
  { induction 1 as [m0|m0 m1 m2 Hstep _ IH]; [done|]. intros Hm0 Hkeys.
    apply IH.
    - unfold reachable in *. eapply rtc_r; done.
    - eapply step_keys_valid; [done| |done]. exact (requests_valid earcut o m0 Hm0). }
  apply (Hsteps _ _ Hreach); [apply rtc_refl|].
  intros k [v Hv]. cbn in Hv. by rewrite lookup_empty in Hv.
Qed.

Lemma pass_keeps_settled (m : WebGLMap) (minTile maxTile : Tile) (k : string)
    (data : list FeatureSet) :
  tiles_get (tiles m) k = Arr data ->
  (forall r, r ∈ tileWorker m -> req_tile r <> k) ->
  tiles_get (tiles (updateTiles m minTile maxTile)) k = Arr data
  /\ forall r, r ∈ tileWorker (updateTiles m minTile maxTile) -> req_tile r <> k.
Proof.
  intros Hdata Hworker. split.
  - rewrite updateTiles_tiles. case_decide as Hun; [|done].
    destruct Hun as [_ Hun]. unfold unheld in Hun. by rewrite Hdata in Hun.
  - intros r. rewrite updateTiles_tileWorker, elem_of_app.
    intros [Hr|Hr]; [by apply Hworker|].
    apply posted_by_elem_of in Hr as (_ & _ & Hun). intros Heq.
    unfold unheld in Hun. by rewrite Heq, Hdata in Hun.
Qed.

Lemma step_keeps_settled (m m' : WebGLMap) (k : string)
    (data : list FeatureSet) :
  step earcut m m' ->
  tiles_get (tiles m) k = Arr data ->
  (forall r, r ∈ tileWorker m -> req_tile r <> k) ->
  tiles_get (tiles m') k = Arr data
  /\ forall r, r ∈ tileWorker m' -> req_tile r <> k.
Proof.
  intros Hstep Hdata Hworker.
  destruct Hstep as [m o|m a b|m d a b|m before event after resp Hw].
  - done.
  - by apply pass_keeps_settled.
  - by apply pass_keeps_settled.
  - assert (Hevent : req_tile event <> k).
    { apply Hworker. rewrite Hw, elem_of_app, elem_of_cons. tauto. }
    split.
    + cbn. rewrite tile_worker_tile. by rewrite tiles_get_insert_ne.
    + intros r Hr. apply Hworker. cbn in Hr.
      rewrite Hw, elem_of_app, elem_of_cons. apply elem_of_app in Hr. tauto.
Qed.

Lemma steps_keep_settled (m m' : WebGLMap) (k : string)
    (data : list FeatureSet) :
  rtc (step earcut) m m' ->
  tiles_get (tiles m) k = Arr data ->
  (forall r, r ∈ tileWorker m -> req_tile r <> k) ->
  tiles_get (tiles m') k = Arr data
  /\ forall r, r ∈ tileWorker m' -> req_tile r <> k.
Proof.
  induction 1 as [m|m1 m2 m3 Hstep _ IH]; [done|].
  intros Hdata Hworker.
  destruct (step_keeps_settled m1 m2 k data Hstep Hdata Hworker).
  by apply IH.
Qed.

(** X22. Tile data is final. Once the worker has answered the request for
    a tile with data, be it the empty array, then in every continuation of
    the run, at any zoom and viewport and whatever the other replies, the
    cache holds that same data for the tile and no request for the tile is
    posted again. *)
Theorem answered_tile_is_final (o : mapOptions) (m m' : WebGLMap)
    (before after : list request) (event : request)
    (response : option VectorTile) (data : list FeatureSet) :
  reachable earcut o m ->
  tileWorker m = before ++ event :: after ->
  fetchTile earcut response (req_layers event) = Some data ->
  rtc (step earcut)
    (handleTileWorker (take_request m (before ++ after))
       (tile_worker earcut event response)) m' ->
  tiles_get (tiles m') (req_tile event) = Arr data
  /\ forall r : request, r ∈ tileWorker m' -> req_tile r <> req_tile event.
Proof.
  intros Hreach Hw Hdata Hrun.
  apply (steps_keep_settled _ _ _ _ Hrun).
  - unfold tile_worker. rewrite Hdata. apply tiles_get_insert_eq.
  - destruct (reachable_coordinated earcut o m Hreach) as [Hnd _].
    rewrite Hw, fmap_app, fmap_cons in Hnd.
    apply NoDup_app in Hnd as (_ & Hdisj & Hnd).
    apply NoDup_cons in Hnd as [Hafter _].
    intros r Hr Heq. cbn in Hr. apply elem_of_app in Hr as [Hr|Hr].
    + apply (Hdisj (req_tile r)); [by apply list_elem_of_fmap_2|].
      rewrite Heq. left.
    + apply Hafter. rewrite <- Heq. by apply list_elem_of_fmap_2.
Qed.

Lemma fold_Set_add_app (l s : list string) :
  exists rest : list string,
    fold_left Set_add l s = s ++ rest
    /\ forall x, x ∈ rest -> x ∉ s.
Proof.
  revert s. induction l as [|x l IH]; intros s.
  - exists []. split; [by rewrite app_nil_r|]. intros x Hx.
    by apply elem_of_nil in Hx.
  - cbn [fold_left]. unfold Set_add at 2. case_decide as Hx; [apply IH|].
    destruct (IH (s ++ [x])) as (rest & -> & Hrest).
    exists (x :: rest). split; [by rewrite <- app_assoc|].
    intros y Hy. apply elem_of_cons in Hy as [->|Hy]; [done|].
    intros Hys. apply (Hrest y Hy). apply elem_of_app. by left.
Qed.

(** X23. Within one pass of [updateTiles], the requests for tiles in view
    are posted before the requests for tiles that are only buffered. *)
Theorem in_view_requests_first (m : WebGLMap) (minTile maxTile : Tile) :
  exists inViewRequests bufferRequests : list request,
    posted_by m minTile maxTile = inViewRequests ++ bufferRequests
    /\ (forall r, r ∈ inViewRequests ->
          req_tile r ∈ join <$> tilesInView (updateTiles m minTile maxTile))
    /\ (forall r, r ∈ bufferRequests ->
          req_tile r ∉ join <$> tilesInView (updateTiles m minTile maxTile)).
Proof.
  rewrite posted_by_unheld. unfold pass_tilesToLoad, tilesToLoad, candidates.
  cbn [tilesInView updateTiles].
  set (inView := join <$> viewTiles minTile maxTile (tileZoom (camera_zoom m))).
  set (buffered := join <$> bufferTiles _ _ _ _).
  unfold new_Set. rewrite fold_left_app.
  destruct (fold_Set_add_app buffered (fold_left Set_add inView []))
    as (rest & -> & Hrest).
  rewrite !List.filter_app, fmap_app.
  eexists _, _. split; [done|]. split.
  - intros r (k & -> & Hk)%list_elem_of_fmap. cbn.
    apply list_elem_of_In, filter_In in Hk as [Hk _].
    apply filter_In in Hk as [Hk _].
    apply list_elem_of_In in Hk.
    exact (proj1 (new_Set_elem_of inView k) Hk).
  - intros r (k & -> & Hk)%list_elem_of_fmap. cbn.
    apply list_elem_of_In, filter_In in Hk as [Hk _].
    apply filter_In in Hk as [Hk _]. apply list_elem_of_In in Hk.
    intros Hin. apply (Hrest k Hk).
    exact (proj2 (new_Set_elem_of inView k) Hin).
Qed.

(** X24. The zoom clamp of [handleZoom]: the clamped zoom is never below
    [minZoom]; with [minZoom <= maxZoom] it is not above [maxZoom], and a
    zoom within the limits is left as it is. With [0 <= minZoom] every tile
    in view after the zoom is at a level from 0 to [MAX_TILE_ZOOM]. *)
Theorem clampZoom_range (m : WebGLMap) (zoom : Q) (minTile maxTile : Tile) :
  (minZoom (options m) <= maxZoom (options m))%Q ->
  let clamped := clampZoom (options m) zoom in
  (minZoom (options m) <= clamped <= maxZoom (options m))%Q
  /\ ((minZoom (options m) <= zoom <= maxZoom (options m))%Q ->
      (clamped == zoom)%Q)
  /\ ((0 <= minZoom (options m))%Q ->
      forall t : Tile,
        t ∈ tilesInView (updateTiles (set_zoom m clamped) minTile maxTile) ->
        (0 <= t.2 <= MAX_TILE_ZOOM)%Z).
Proof.
  intros Hlimits clamped. unfold clamped, clampZoom.
  split; [|split].
  - split; [apply Q.le_max_l|].
    apply Q.max_lub; [done|apply Q.le_min_r].
  - intros [Hlo Hhi]. rewrite Q.min_l by done. by apply Q.max_r.
  - intros Hmin t Ht. cbn in Ht. apply viewTiles_zoom in Ht as ->.
    unfold tileZoom. split; [|apply Z.le_min_r].
    apply Z.min_glb; [|done].
    assert (Hnonneg : (0 <= Qmax (minZoom (options m))
                                 (Qmin zoom (maxZoom (options m))))%Q)
      by (eapply Qle_trans; [exact Hmin|apply Q.le_max_l]).
    rewrite Math_trunc_nonneg by done.
    change 0%Z with (Qfloor 0). by apply Qfloor_resp_le.
Qed.
End RunFacts.

(** ** From the reply to the screen *)

Section ReplyFacts.
Context `{Tilebelt}.
Variable earcut : list R -> list nat -> list nat.

Lemma fetchTile_nil (vectorTile : VectorTile) (layers : list string) :
  fetchTile earcut (Some vectorTile) layers = Some []
  <-> forall layer, layer ∈ layers -> vectorTile !! layer = None.
Proof.
  rewrite fetchTile_mapM.
  induction layers as [|layer layers IH].
  - split; [|done]. intros _ layer Hin. by apply elem_of_nil in Hin.
  - cbn [mapM].
    assert (Hlayer : layer_featureSets earcut vectorTile layer = Some []
                     <-> vectorTile !! layer = None).
    { unfold layer_featureSets. destruct (vectorTile !! layer) as [features|];
        [|done].
      split; [|done].
      destruct (bucket earcut polygon features); [|done].
      destruct (bucket earcut point features); [|done].
      by destruct (bucket earcut line features). }
    split.
    + destruct (layer_featureSets earcut vectorTile layer) as [sets|] eqn:Hsets;
        [|done].
      destruct (mapM (layer_featureSets earcut vectorTile) layers) as [rest|];
        [|done].
      cbn. intros [= Hnil]. apply app_eq_nil in Hnil as [-> Hrest].
      intros layer' [->|Hin]%elem_of_cons; [by apply Hlayer|].
      apply IH; [cbn; by f_equal|done].
    + intros Hnone.
      rewrite (proj2 Hlayer) by (apply Hnone; left). cbn.
      assert (Hrest : @concat FeatureSet
                        <$> mapM (layer_featureSets earcut vectorTile) layers
                      = Some []).
      { apply IH. intros layer' Hin. apply Hnone. by right. }
      destruct (mapM (layer_featureSets earcut vectorTile) layers) as [rest|];
        [|done].
      cbn in *. done.
Qed.

(** X25. From the reply to the screen. When [fetchTile] returns tile data
    for a tile, the data is empty exactly when the vector tile has none of
    the requested layers; non-empty data is what [draw] renders for the
    tile after [handleTileWorker], and with empty data [draw] renders the
    placeholder of the tile. *)
Theorem draw_after_reply (m : WebGLMap) (event : request)
    (vectorTile : VectorTile) (data : list FeatureSet) (t : Tile) :
  join t = req_tile event ->
  fetchTile earcut (Some vectorTile) (req_layers event) = Some data ->
  let m' := handleTileWorker m (tile_worker earcut event (Some vectorTile)) in
  (data = []
   <-> forall layer, layer ∈ req_layers event -> vectorTile !! layer = None)
  /\ (data <> [] -> draw_featureSets (tiles m') t = data)
  /\ (data = [] ->
      draw_featureSets (tiles m') t = getPlaceholderTile (tiles m') t).
Proof.
  intros Hkey Hdata m'.
  assert (Hentry : tiles_get (tiles m') (join t) = Arr data).
  { unfold m', tile_worker. rewrite Hdata, Hkey. apply tiles_get_insert_eq. }
  split; [|split].
  - rewrite <- fetchTile_nil, Hdata. split; [by intros ->|by intros [= ->]].
  - intros Hne. unfold draw_featureSets. rewrite Hentry. by destruct data.
  - intros ->. unfold draw_featureSets. by rewrite Hentry.
Qed.
End ReplyFacts.

(** ** Examples on concrete maps, with the tilebelt package *)

#[local] Existing Instance tilebelt.package.

(** The map after the first pass of the constructor: one request is
    waiting for each tile of the load list, none twice. *)
Lemma at_most_one_fetch_per_tile_example :
  let m := example_map in
  reachable fan_triangulation example_options m
  /\ NoDup (req_tile <$> tileWorker m)
  /\ forall r : request, r ∈ tileWorker m ->
       tiles_get (tiles m) (req_tile r) = Arr []
       /\ forall (zoom : Q) (minTile maxTile : Tile),
            (forall r' : request,
               r' ∈ posted_by (set_zoom m zoom) minTile maxTile ->
               req_tile r' <> req_tile r)
            /\ tiles_get (tiles (updateTiles (set_zoom m zoom) minTile maxTile))
                 (req_tile r) = Arr [].
Proof.
  intros m.
  assert (Hreach : reachable fan_triangulation example_options m)
    by exact (rtc_once _ _ (step_pan _ (construct example_options)
                              brooklyn brooklyn)).
  split; [exact Hreach|].
  exact (at_most_one_fetch_per_tile fan_triangulation example_options m Hreach).
Defined.

Example example_map_requests :
  req_tile <$> tileWorker example_map
  = [ "2412/3080/13"; "2411/3079/13"; "1205/1539/12"; "602/769/11";
      "2411/3080/13"; "1205/1540/12"; "602/770/11"; "2411/3081/13";
      "2412/3079/13"; "1206/1539/12"; "603/769/11"; "1206/1540/12";
      "603/770/11"; "2412/3081/13"; "2413/3079/13"; "2413/3080/13";
      "2413/3081/13" ].
Proof. vm_compute. reflexivity. Qed.

(** At zoom 1 with the whole world in view, the buffer reaches tile
    -1/-1/1, which is a candidate, is out of range, and is not requested. *)
Lemma out_of_range_never_requested_example :
  let m := construct world_options in
  let minTile : Tile := (0, 0, 1)%Z in
  let maxTile : Tile := (1, 1, 1)%Z in
  let t : Tile := (-1, -1, 1)%Z in
  let z := tileZoom (camera_zoom m) in
  let inView := viewTiles minTile maxTile z in
  let buffered := bufferTiles (tileBuffer (options m)) minTile maxTile z in
  join t ∈ new_Set (candidates inView buffered)
  /\ (~ valid_tile t)
  /\ (join t ∉ tilesToLoad inView buffered)
  /\ forall r : request, r ∈ posted_by m minTile maxTile -> req_tile r <> join t.
Proof.
  intros m minTile maxTile t z inView buffered.
  assert (Hcand : join t ∈ new_Set (candidates inView buffered))
    by by_computation.
  assert (Hinvalid : ~ valid_tile t) by (unfold valid_tile, t; lia).
  split; [exact Hcand|]. split; [exact Hinvalid|].
  exact (out_of_range_never_requested m minTile maxTile t Hcand Hinvalid).
Defined.

(** Around the Brooklyn tile with a buffer of 1, tile 2411/3081/13 comes
    with its parent 1205/1540/12 and its grandparent 602/770/11. *)
Lemma buffered_tiles_with_two_ancestors_example :
  let bufX := 2411%Z in
  let bufY := 3081%Z in
  let buffered := bufferTiles 1 brooklyn brooklyn 13 in
  let loadList := candidates (viewTiles brooklyn brooklyn 13) buffered in
  let tile : Tile := (bufX, bufY, 13%Z) in
  (Z.max brooklyn.1.1 0 - 1 <= bufX <= brooklyn.1.1 + 1)%Z
  /\ (Z.max brooklyn.1.2 0 - 1 <= bufY <= brooklyn.1.2 + 1)%Z
  /\ (tile ∈ buffered
      /\ getParent tile ∈ buffered
      /\ getParent (getParent tile) ∈ buffered)
  /\ (join tile ∈ loadList
      /\ join (getParent tile) ∈ loadList
      /\ join (getParent (getParent tile)) ∈ loadList).
Proof.
  intros bufX bufY buffered loadList tile.
  assert (Hx : (Z.max brooklyn.1.1 0 - 1 <= bufX <= brooklyn.1.1 + 1)%Z)
    by (unfold bufX; cbn; lia).
  assert (Hy : (Z.max brooklyn.1.2 0 - 1 <= bufY <= brooklyn.1.2 + 1)%Z)
    by (unfold bufY; cbn; lia).
  split; [exact Hx|]. split; [exact Hy|].
  exact (buffered_tiles_with_two_ancestors 1 brooklyn brooklyn 13 bufX bufY Hx Hy).
Defined.

Example brooklyn_ancestors :
  getParent (2411, 3081, 13)%Z = (1205, 1540, 12)%Z
  /\ getParent (getParent (2411, 3081, 13)%Z) = (602, 770, 11)%Z.
Proof. done. Qed.

(** The bundle dist/webgl-map.js, built from an earlier revision of
    [updateTiles], buffers the children and the parent of a tile, and not
    its grandparent. *)
Remark bundled_buffer_lacks_grandparent :
  let tile : Tile := (2411, 3081, 13)%Z in
  tile ∈ bufferTiles_bundled 1 brooklyn brooklyn 13
  /\ getParent tile ∈ bufferTiles_bundled 1 brooklyn brooklyn 13
  /\ getParent (getParent tile) ∉ bufferTiles_bundled 1 brooklyn brooklyn 13.
Proof.
  intros tile. repeat split; by_computation.
Qed.

(** C9 as stated fails: with the options [minZoom: -1, zoom: -0.5] the
    constructor sets the camera zoom to -1/2, which the clamp of [handleZoom]
    keeps; [updateTiles] then works at tile zoom 0, the zoom of its tile in
    view, while min(floor(-1/2), MAX_TILE_ZOOM) is -1. *)
Lemma tileZoom_negative_zoom_not_floor :
  let m := construct wide_options in
  let zoom := camera_zoom m in
  (zoom == -1 # 2)%Q
  /\ (clampZoom (options m) zoom == zoom)%Q
  /\ (minZoom (options m) <= zoom <= maxZoom (options m))%Q
  /\ tileZoom zoom = 0%Z
  /\ tilesInView (updateTiles m (0, 0, 0)%Z (0, 0, 0)%Z) = [ (0, 0, 0)%Z ]
  /\ Z.min (Qfloor zoom) MAX_TILE_ZOOM = (-1)%Z
  /\ tileZoom zoom <> Z.min (Qfloor zoom) MAX_TILE_ZOOM.
Proof. vm_compute. repeat split; congruence. Qed.

(** The default map at zoom 13. *)
Lemma tileZoom_floor_nonneg_example :
  let m := construct example_options in
  (0 <= camera_zoom m)%Q
  /\ (forall t : Tile,
       t ∈ tilesInView (updateTiles m brooklyn brooklyn) ->
       t.2 = Z.min (Math_trunc (camera_zoom m)) MAX_TILE_ZOOM)
  /\ Z.min (Math_trunc (camera_zoom m)) MAX_TILE_ZOOM
     = Z.min (Qfloor (camera_zoom m)) MAX_TILE_ZOOM.
Proof.
  intros m.
  assert (Hzoom : (0 <= camera_zoom m)%Q) by (unfold Qle; cbn; lia).
  split; [exact Hzoom|].
  split; [exact (proj1 (tileZoom_floor_nonneg m brooklyn brooklyn))|].
  exact (proj2 (tileZoom_floor_nonneg m brooklyn brooklyn) Hzoom).
Defined.

Example tileZoom_values :
  tileZoom 13 = 13%Z /\ tileZoom (27 # 2) = 13%Z /\ tileZoom 18 = 14%Z
  /\ tileZoom (-1 # 2) = 0%Z /\ tileZoom (-3 # 2) = (-1)%Z.
Proof. done. Qed.

(** The request for the Brooklyn tile fails: its entry becomes undefined
    and the next pass over the same viewport requests it again. *)
Lemma failed_tile_is_requested_again_example :
  let m := example_map in
  let event := request_for example_options (join brooklyn) in
  let rest := tail (tileWorker m) in
  let workerEvent := tile_worker fan_triangulation event None in
  let m' := handleTileWorker (take_request m rest) workerEvent in
  fetchTile fan_triangulation None (req_layers event) = None
  /\ workerEvent = {| rep_tile := req_tile event; rep_tileData := Undefined |}
  /\ tiles m' !! req_tile event = Some Undefined
  /\ truthy (tiles_get (tiles m') (req_tile event)) = false
  /\ (req_tile event ∈ pass_tilesToLoad m' brooklyn brooklyn ->
      request_for (options m') (req_tile event) ∈ posted_by m' brooklyn brooklyn
      /\ tiles_get (tiles (updateTiles m' brooklyn brooklyn)) (req_tile event)
         = Arr []).
Proof.
  intros m event rest workerEvent m'.
  assert (Hfail : fetchTile fan_triangulation None (req_layers event) = None)
    by reflexivity.
  split; [exact Hfail|].
  exact (failed_tile_is_requested_again fan_triangulation m rest event None
           brooklyn brooklyn Hfail).
Defined.

Example failed_tile_next_pass :
  let m := example_map in
  let event := request_for example_options (join brooklyn) in
  let m' := handleTileWorker (take_request m (tail (tileWorker m)))
              (tile_worker fan_triangulation event None) in
  head (tileWorker m) = Some event
  /\ posted_by m brooklyn brooklyn = []
  /\ posted_by m' brooklyn brooklyn = [event].
Proof. vm_compute. done. Qed.

(** C2 as stated fails: tile 4/4/3 is held, its parent 2/2/2 is not in the
    cache, its grandparent 1/1/1 is ready and is the nearest ready ancestor,
    and [draw] renders nothing for the tile. *)
Lemma placeholder_ignores_grandparent :
  let tile : Tile := (4, 4, 3)%Z in
  tiles_get example_tiles (join tile) = Arr []
  /\ spec_nearestAncestor example_tiles 3 tile = Some [water]
  /\ getPlaceholderTile example_tiles tile = []
  /\ draw_featureSets example_tiles tile = []
  /\ Some (draw_featureSets example_tiles tile)
     <> spec_nearestAncestor example_tiles 3 tile.
Proof. vm_compute. repeat split; congruence. Qed.

(** With the parent 2/2/2 ready as well, [draw] renders the parent. *)
Lemma placeholder_is_parent_or_children_example :
  let tiles := <["2/2/2" := Arr [water; water]]> example_tiles in
  let tile : Tile := (4, 4, 3)%Z in
  let parent := tiles_get tiles (join (getParent tile)) in
  let ofChildren :=
    getChildren tile ≫= fun child => elements (tiles_get tiles (join child)) in
  tiles_get tiles (join tile) = Arr []
  /\ draw_featureSets tiles tile = getPlaceholderTile tiles tile
  /\ (length_gt_0 parent = true ->
      getPlaceholderTile tiles tile = elements parent)
  /\ (length_gt_0 parent = false ->
      getPlaceholderTile tiles tile = ofChildren
      /\ ((forall child : Tile, child ∈ getChildren tile ->
             length_gt_0 (tiles_get tiles (join child)) = false) ->
          getPlaceholderTile tiles tile = [])).
Proof.
  intros tiles tile parent ofChildren.
  assert (Hempty : tiles_get tiles (join tile) = Arr []) by reflexivity.
  split; [exact Hempty|].
  exact (placeholder_is_parent_or_children tiles tile Hempty).
Defined.

Example placeholder_parent_then_children :
  let tile : Tile := (4, 4, 3)%Z in
  draw_featureSets (<["2/2/2" := Arr [water; water]]> example_tiles) tile
    = [water; water]
  /\ draw_featureSets
       (<["8/8/4" := Arr [water]]> (<["9/9/4" := Arr [water; water]]> example_tiles))
       tile
     = [water; water; water].
Proof. vm_compute. done. Qed.

(** A polygon with a hole inside a MultiPolygon: the fan over the outer
    ring alone. *)
Example MultiPolygon_example :
  let square : list position := [(0, 0); (4, 0); (4, 4); (0, 4); (0, 0)]%R in
  let hole : list position := [(1, 1); (2, 1); (1, 2); (1, 1)]%R in
  geometryToVertices fan_triangulation (MultiPolygon [[square; hole]])
  = geometryToVertices fan_triangulation (Polygon [square])
  /\ (length <$> geometryToVertices fan_triangulation (MultiPolygon [[square; hole]]))
     = Some 18%nat.
Proof. done. Qed.

(** ** Examples for the further facts *)


(** One degree east and one degree north of the origin. *)
Lemma fromLngLat_monotone_example :
  ((0 < 1)%R /\ (-90 < 0)%R /\ (0 < 1)%R /\ (1 < 90)%R)
  /\ (fst (MercatorCoordinate.fromLngLat (0, 0)%R)
      < fst (MercatorCoordinate.fromLngLat (1, 1)%R))%R
  /\ (snd (MercatorCoordinate.fromLngLat (0, 0)%R)
      < snd (MercatorCoordinate.fromLngLat (1, 1)%R))%R
  /\ MercatorCoordinate.fromLngLat (0, 0)%R = (0, 0)%R.
Proof.
  assert (H1 : (0 < 1)%R) by lra.
  assert (H2 : (-90 < 0)%R) by lra.
  assert (H3 : (1 < 90)%R) by lra.
  split; [done|].
  exact (fromLngLat_monotone 0 1 0 1 H1 H2 H1 H3).
Defined.

(** A canvas of 1024 by 768 pixels with the camera on the origin at
    zoom 0. *)
Lemma getBounds_around_camera_example :
  let b := getBounds 0 0 0 1024 768 in
  let centre := MercatorCoordinate.fromXY (0, 0)%R in
  ((0 < 1024)%R /\ (0 < 768)%R)
  /\ (bbox0 b < bbox2 b)%R
  /\ (bbox1 b < bbox3 b)%R
  /\ ((bbox0 b + bbox2 b) / 2 = fst centre)%R
  /\ (bbox1 b < snd centre < bbox3 b)%R
  /\ (bbox2 b - bbox0 b = 360 * 1024 / (IZR TILE_SIZE * Rpower 2 0))%R.
Proof.
  intros b centre.
  assert (Hw : (0 < 1024)%R) by lra.
  assert (Hh : (0 < 768)%R) by lra.
  split; [done|].
  exact (getBounds_around_camera 0 0 0 1024 768 Hw Hh).
Defined.

(** At zoom 0 the world is one tile of 512 pixels: on a canvas 1024 pixels
    wide the map is at its limits. *)
Lemma atLimits_when_world_fits_example :
  (IZR TILE_SIZE * Rpower 2 0 <= 1024)%R
  /\ atLimits 0 0 0 1024 768.
Proof.
  assert (Hfit : (IZR TILE_SIZE * Rpower 2 0 <= 1024)%R).
  { rewrite Rpower_O by lra. unfold TILE_SIZE. lra. }
  split; [done|].
  exact (atLimits_when_world_fits 0 0 0 1024 768 Hfit).
Defined.

(** The tile server URL of the README for the Brooklyn tile. *)
Lemma formatTileURL_template_example :
  (bracefree "https://maps.ckochis.com/data/v3/" /\ bracefree "/"
   /\ bracefree ".pbf")
  /\ formatTileURL "2412/3080/13"
       "https://maps.ckochis.com/data/v3/{z}/{x}/{y}.pbf"
     = "https://maps.ckochis.com/data/v3/13/2412/3080.pbf"
  /\ formatTileURL "2412/3080/13" "https://maps.ckochis.com/data/v3/"
     = "https://maps.ckochis.com/data/v3/".
Proof.
  assert (Ha : bracefree "https://maps.ckochis.com/data/v3/")
    by (cbn; repeat split; discriminate).
  assert (Hb : bracefree "/") by (cbn; repeat split; discriminate).
  assert (Hd : bracefree ".pbf") by (cbn; repeat split; discriminate).
  split; [done|].
  exact (formatTileURL_template 2412 3080 13 _ _ _ _ Ha Hb Hb Hd).
Defined.

(** A road layer that is not requested does not change the result. *)
Lemma fetchTile_requested_layers_only_example :
  (forall layer, layer ∈ ["water"; "park"] ->
     example_vectorTile_with_roads !! layer = example_vectorTile !! layer)
  /\ fetchTile fan_triangulation (Some example_vectorTile_with_roads)
       ["water"; "park"]
     = fetchTile fan_triangulation (Some example_vectorTile) ["water"; "park"].
Proof.
  assert (Hsame : forall layer, layer ∈ ["water"; "park"] ->
            example_vectorTile_with_roads !! layer
            = example_vectorTile !! layer).
  { intros layer Hin. rewrite !elem_of_cons, elem_of_nil in Hin.
    destruct Hin as [->|[->|[]]]; done. }
  split; [done|].
  exact (fetchTile_requested_layers_only fan_triangulation _ _ _ Hsame).
Defined.

(** A water layer with a line of one point fails the Brooklyn tile. *)
Lemma bad_feature_fails_tile_example :
  let event := request_for example_options (join brooklyn) in
  let geojson := LineString [(0, 0)%R] in
  ("water" ∈ req_layers event
   /\ broken_water_tile !! "water" = Some [geojson]
   /\ supported geojson
   /\ geometryToVertices fan_triangulation geojson = None)
  /\ fetchTile fan_triangulation (Some broken_water_tile) (req_layers event)
     = None
  /\ tile_worker fan_triangulation event (Some broken_water_tile)
     = {| rep_tile := req_tile event; rep_tileData := Undefined |}.
Proof.
  intros event geojson.
  assert (Hlayer : "water" ∈ req_layers event) by left.
  assert (Hfeatures : broken_water_tile !! "water" = Some [geojson]) by done.
  assert (Hin : geojson ∈ [geojson]) by left.
  assert (Hsupported : supported geojson) by done.
  assert (Hthrow : geometryToVertices fan_triangulation geojson = None) by done.
  split; [done|].
  exact (bad_feature_fails_tile fan_triangulation broken_water_tile event
           "water" [geojson] geojson Hlayer Hfeatures Hin Hsupported Hthrow).
Defined.



(** The Brooklyn tile is in view and, with the buffer of 1, buffered. *)
Lemma viewTiles_buffered_example :
  (0 <= 1)%Z
  /\ brooklyn ∈ viewTiles brooklyn brooklyn 13
  /\ brooklyn ∈ bufferTiles 1 brooklyn brooklyn 13.
Proof.
  assert (Hbuffer : (0 <= 1)%Z) by lia.
  assert (Hview : brooklyn ∈ viewTiles brooklyn brooklyn 13) by by_computation.
  split; [done|]. split; [done|].
  exact (viewTiles_buffered 1 brooklyn brooklyn 13 brooklyn Hbuffer Hview).
Defined.

(** After the first pass of the constructor the Brooklyn tile has an
    array. *)
Lemma in_view_tiles_are_held_example :
  let m := construct example_options in
  brooklyn ∈ tilesInView (updateTiles m brooklyn brooklyn)
  /\ valid_tile brooklyn
  /\ exists featureSets : list FeatureSet,
       tiles (updateTiles m brooklyn brooklyn) !! join brooklyn
       = Some (Arr featureSets).
Proof.
  intros m.
  assert (Hview : brooklyn ∈ tilesInView (updateTiles m brooklyn brooklyn))
    by by_computation.
  assert (Hvalid : valid_tile brooklyn) 
    by (unfold valid_tile, brooklyn, MAX_TILE_ZOOM;
        change (2 ^ 13)%Z with 8192%Z; lia).
  split; [done|]. split; [done|].
  exact (in_view_tiles_are_held m brooklyn brooklyn brooklyn Hview Hvalid).
Defined.

(** The Brooklyn tile stays in the cache when the map moves to the next
    tile. *)
Lemma cache_never_evicts_example :
  let m := example_map in
  let m' := updateTiles m (2500, 3080, 13)%Z (2500, 3080, 13)%Z in
  rtc (step fan_triangulation) m m'
  /\ is_Some (tiles m !! join brooklyn)
  /\ is_Some (tiles m' !! join brooklyn).
Proof.
  intros m m'.
  assert (Hrun : rtc (step fan_triangulation) m m')
    by exact (rtc_once _ _ (step_pan _ m _ _)).
  assert (Hk : is_Some (tiles m !! join brooklyn)) by by_computation.
  split; [done|]. split; [done|].
  exact (cache_never_evicts fan_triangulation m m' (join brooklyn) Hrun Hk).
Defined.

(** The key of the Brooklyn tile in the cache of the example map. *)
Lemma cache_keys_valid_example :
  let m := example_map in
  reachable fan_triangulation example_options m
  /\ is_Some (tiles m !! "2412/3080/13")
  /\ exists t : Tile, "2412/3080/13" = join t /\ valid_tile t.
Proof.
  intros m.
  assert (Hreach : reachable fan_triangulation example_options m)
    by exact (rtc_once _ _ (step_pan _ (construct example_options)
                              brooklyn brooklyn)).
  assert (Hk : is_Some (tiles m !! "2412/3080/13")) by by_computation.
  split; [done|]. split; [done|].
  exact (cache_keys_valid fan_triangulation example_options m "2412/3080/13"
           Hreach Hk).
Defined.

(** The request for the Brooklyn tile is answered with a water layer
    without features; the map then moves to the next tile and back. *)
Lemma answered_tile_is_final_example :
  let m := example_map in
  let event := request_for example_options (join brooklyn) in
  let after := tail (tileWorker m) in
  let data :=
    [ {| fs_layer := "water"; fs_type := polygon; fs_vertices := [] |};
      {| fs_layer := "water"; fs_type := point; fs_vertices := [] |};
      {| fs_layer := "water"; fs_type := line; fs_vertices := [] |} ] in
  let m1 := handleTileWorker (take_request m ([] ++ after))
              (tile_worker fan_triangulation event (Some empty_water_tile)) in
  let m' := updateTiles
              (updateTiles m1 (2500, 3080, 13)%Z (2500, 3080, 13)%Z)
              brooklyn brooklyn in
  reachable fan_triangulation example_options m
  /\ tileWorker m = [] ++ event :: after
  /\ fetchTile fan_triangulation (Some empty_water_tile) (req_layers event)
     = Some data
  /\ rtc (step fan_triangulation) m1 m'
  /\ tiles_get (tiles m') (req_tile event) = Arr data
  /\ forall r : request, r ∈ tileWorker m' -> req_tile r <> req_tile event.
Proof.
  intros m event after data m1 m'.
  assert (Hreach : reachable fan_triangulation example_options m)
    by exact (rtc_once _ _ (step_pan _ (construct example_options)
                              brooklyn brooklyn)).
  assert (Hw : tileWorker m = [] ++ event :: after) by (vm_compute; reflexivity).
  assert (Hdata : fetchTile fan_triangulation (Some empty_water_tile)
                    (req_layers event) = Some data) by done.
  assert (Hrun : rtc (step fan_triangulation) m1 m')
    by exact (rtc_l _ _ _ _ (step_pan _ m1 _ _)
                (rtc_once _ _ (step_pan _ _ brooklyn brooklyn))).
  split; [done|]. split; [done|]. split; [done|]. split; [done|].
  exact (answered_tile_is_final fan_triangulation example_options m m' []
           after event (Some empty_water_tile) data Hreach Hw Hdata Hrun).
Defined.

(** The default limits 0 and 18: a zoom of 20 is clamped to 18, and the
    tiles in view are at level 14. *)
Lemma clampZoom_range_example :
  let m := construct example_options in
  let clamped := clampZoom (options m) 20 in
  (minZoom (options m) <= maxZoom (options m))%Q
  /\ (minZoom (options m) <= clamped <= maxZoom (options m))%Q
  /\ ((minZoom (options m) <= 20 <= maxZoom (options m))%Q ->
      (clamped == 20)%Q)
  /\ ((0 <= minZoom (options m))%Q ->
      forall t : Tile,
        t ∈ tilesInView (updateTiles (set_zoom m clamped) brooklyn brooklyn) ->
        (0 <= t.2 <= MAX_TILE_ZOOM)%Z).
Proof.
  intros m clamped.
  assert (Hlimits : (minZoom (options m) <= maxZoom (options m))%Q)
    by (unfold Qle; cbn; lia).
  split; [done|].
  exact (clampZoom_range m 20 brooklyn brooklyn Hlimits).
Defined.

(** The Brooklyn tile answered with a water layer without features is
    drawn from its own three feature sets. *)
Lemma draw_after_reply_example :
  let m := example_map in
  let event := request_for example_options (join brooklyn) in
  let data :=
    [ {| fs_layer := "water"; fs_type := polygon; fs_vertices := [] |};
      {| fs_layer := "water"; fs_type := point; fs_vertices := [] |};
      {| fs_layer := "water"; fs_type := line; fs_vertices := [] |} ] in
  let m' := handleTileWorker m
              (tile_worker fan_triangulation event (Some empty_water_tile)) in
  join brooklyn = req_tile event
  /\ fetchTile fan_triangulation (Some empty_water_tile) (req_layers event)
     = Some data
  /\ (data = []
      <-> forall layer, layer ∈ req_layers event ->
            empty_water_tile !! layer = None)
  /\ (data <> [] -> draw_featureSets (tiles m') brooklyn = data)
  /\ (data = [] ->
      draw_featureSets (tiles m') brooklyn
      = getPlaceholderTile (tiles m') brooklyn).
Proof.
  intros m event data m'.
  assert (Hkey : join brooklyn = req_tile event) by done.
  assert (Hdata : fetchTile fan_triangulation (Some empty_water_tile)
                    (req_layers event) = Some data) by done.
  split; [done|]. split; [done|].
  exact (draw_after_reply fan_triangulation m event empty_water_tile data
           brooklyn Hkey Hdata).
Defined.
